(** * Luxtronik integration: the device access wrapper

    A model of [custom_components/luxtronik/__init__.py]: the configuration
    schema, [setup]/[setup_int], and the class [LuxtronikDevice] whose
    methods [update], [write] and [get_value] guard a vendor device handle
    with one [threading.Lock].

    The methods are written as command trees over the primitives the Python
    code calls (lock, device handle, logger).  A step function runs one
    command of one thread against the shared objects, and a scheduler
    interleaves threads, so that both the sequential and the concurrent
    behaviour of the wrapper can be stated. *)

From stdpp Require Import base option list strings gmap fin_maps.
From Stdlib Require Import ZArith Lia Ascii.

Local Open Scope string_scope.
Local Open Scope list_scope.
Local Open Scope Z_scope.

(** ** Python exceptions and results *)

Inductive exn :=
| IndexError
| KeyError (key : string)
| RuntimeError
| ValueError
| OverflowError
| TypeError
| VendorError (code : nat).

Inductive outcome (A : Type) :=
| Ret (a : A)
| Raise (e : exn).
Arguments Ret {A} a.
Arguments Raise {A} e.

(** ** [str.split('.')] and list indexing *)

Definition dot : ascii := "."%char.

(** [s.split('.')]: the segments between dots; never the empty list. *)
Fixpoint split_dot (s : string) : list string :=
  match s with
  | EmptyString => [EmptyString]
  | String c rest =>
      if Ascii.eqb c dot then EmptyString :: split_dot rest
      else match split_dot rest with
           | [] => [String c EmptyString]
           | w :: ws => String c w :: ws
           end
  end.

(** [l[i]] for a non-negative index: [IndexError] out of range. *)
Definition py_index {A} (l : list A) (i : nat) : outcome A :=
  match l !! i with
  | Some x => Ret x
  | None => Raise IndexError
  end.

(** A string without a dot. *)
Fixpoint no_dot (s : string) : bool :=
  match s with
  | EmptyString => true
  | String c rest => negb (Ascii.eqb c dot) && no_dot rest
  end.

(** ** Configuration values *)

Inductive cval :=
| CStr (s : string)
| CInt (z : Z)
| CBool (b : bool).

Abbreviation conf := (gmap string cval).

(** ** The surroundings of the module *)

(** The names imported from [.const] and [homeassistant.const]. *)
Class Const := {
  DOMAIN : string;
  CONF_HOST : string;
  CONF_PORT : string;
  CONF_SAFE : string;
  CONF_LOCK_TIMEOUT : string;
  CONF_UPDATE_IMMEDIATELY_AFTER_WRITE : string;
  CONF_PARAMETERS : string;
  CONF_CALCULATIONS : string;
  CONF_VISIBILITIES : string;
  DEFAULT_PORT : Z;
}.

(** The Python runtime and the host platform's validators:
    [threading.TIMEOUT_MAX], [int(str)], [cv.string] and [cv.boolean]. *)
Class Host := {
  TIMEOUT_MAX : Z;
  py_int : string → option Z;
  cv_string : cval → option cval;
  cv_boolean : cval → option cval;
}.

Inductive table := Parameters | Calculations | Visibilities.

(** The vendor library [luxtronik]: the device handle [Lux], the entries of
    its three lookup tables, and its protocol operations. *)
Class Vendor := {
  Value : Type;
  Sensor : Type;
  value : Sensor → Value;
  Lux : Type;
  table_get : table → Lux → string → option Sensor;
  Lux_new : cval → cval → cval → Lux * option exn;
  Lux_parameters_set : string → Value → Lux → Lux * option exn;
  Lux_write : Lux → Lux * option exn;
  Lux_read : Lux → Lux * option exn;
}.

Section Wrapper.
Context `{Const} `{Host} `{Vendor}.

(** Calls on the device handle that talk to the heat pump. *)
Inductive devop :=
| OpNew (host port safe : cval)
| OpSet (parameter : string) (v : Value)
| OpWrite
| OpRead.

Inductive logarg :=
| LStr (s : string)
| LVal (v : Value)
| LCfg (c : cval).

(** ** Command trees *)

Inductive prog (A : Type) : Type :=
| Pure (a : A)
| Throw (e : exn)
| NewLock (k : prog A)
| Acquire (blocking : bool) (timeout : cval) (k : outcome bool → prog A)
| Release (k : outcome unit → prog A)
| LuxCall (op : devop) (k : outcome unit → prog A)
| LuxGet (tbl : table) (sensor_id : string) (k : option Sensor → prog A)
| Warning (msg : string) (args : list logarg) (k : prog A).
Arguments Pure {A} a.
Arguments Throw {A} e.
Arguments NewLock {A} k.
Arguments Acquire {A} blocking timeout k.
Arguments Release {A} k.
Arguments LuxCall {A} op k.
Arguments LuxGet {A} tbl sensor_id k.
Arguments Warning {A} msg args k.

Definition lift {A} (r : outcome A) : prog A :=
  match r with
  | Ret a => Pure a
  | Raise e => Throw e
  end.

Fixpoint bind {A B} (p : prog A) (f : A → prog B) : prog B :=
  match p with
  | Pure a => f a
  | Throw e => Throw e
  | NewLock k => NewLock (bind k f)
  | Acquire b t k => Acquire b t (λ r, bind (k r) f)
  | Release k => Release (λ r, bind (k r) f)
  | LuxCall op k => LuxCall op (λ r, bind (k r) f)
  | LuxGet tbl i k => LuxGet tbl i (λ r, bind (k r) f)
  | Warning msg args k => Warning msg args (bind k f)
  end.

(** [try: body finally: final].  The final block runs on every way out of
    [body]; an exception it raises replaces the pending one. *)
Fixpoint try_finally {A} (body : prog A) (final : prog unit) : prog A :=
  match body with
  | Pure a => bind final (λ _, Pure a)
  | Throw e => bind final (λ _, Throw e)
  | NewLock k => NewLock (try_finally k final)
  | Acquire b t k => Acquire b t (λ r, try_finally (k r) final)
  | Release k => Release (λ r, try_finally (k r) final)
  | LuxCall op k => LuxCall op (λ r, try_finally (k r) final)
  | LuxGet tbl i k => LuxGet tbl i (λ r, try_finally (k r) final)
  | Warning msg args k => Warning msg args (try_finally k final)
  end.

Notation "'let*' x ':=' p 'in' q" := (bind p (λ x, q))
  (at level 10, x name, p at level 100, q at level 200, only parsing).
Notation "p ;; q" := (bind p (λ _, q))
  (at level 100, q at level 200, right associativity, only parsing).

(** The primitives as the code calls them. *)
Definition threading_Lock : prog unit := NewLock (Pure tt).
Definition lock_acquire (blocking : bool) (timeout : cval) : prog bool :=
  Acquire blocking timeout lift.
Definition lock_release : prog unit := Release lift.
Definition Lux_ (host port safe : cval) : prog unit := LuxCall (OpNew host port safe) lift.
Definition _luxtronik_parameters_set (parameter : string) (v : Value) : prog unit :=
  LuxCall (OpSet parameter v) lift.
Definition _luxtronik_write : prog unit := LuxCall OpWrite lift.
Definition _luxtronik_read : prog unit := LuxCall OpRead lift.
Definition _luxtronik_get (tbl : table) (sensor_id : string) : prog (option Sensor) :=
  LuxGet tbl sensor_id Pure.
Definition LOGGER_warning (msg : string) (args : list logarg) : prog unit :=
  Warning msg args (Pure tt).

(** ** class LuxtronikDevice *)

(** The attributes [__init__] assigns.  [self.lock] and [self._luxtronik]
    refer to the shared lock and device handle, whose state is in [World]
    below. *)
Record LuxtronikDevice := {
  _host : cval;
  _port : cval;
  _lock_timeout_sec : cval;
}.

Definition get_sensor (self : LuxtronikDevice) (group sensor_id : string)
  : prog (option Sensor) :=
  let sensor : option Sensor := None in
  let* sensor := (if String.eqb group CONF_PARAMETERS
                  then _luxtronik_get Parameters sensor_id else Pure sensor) in
  let* sensor := (if String.eqb group CONF_CALCULATIONS
                  then _luxtronik_get Calculations sensor_id else Pure sensor) in
  let* sensor := (if String.eqb group CONF_VISIBILITIES
                  then _luxtronik_get Visibilities sensor_id else Pure sensor) in
  Pure sensor.

Definition get_sensor_by_id (self : LuxtronikDevice) (group_sensor_id : string)
  : prog (option Sensor) :=
  let* group := lift (py_index (split_dot group_sensor_id) 0) in
  let* sensor_id := lift (py_index (split_dot group_sensor_id) 1) in
  get_sensor self group sensor_id.

(** The result is [None] for Python's [None], else the entry's value. *)
Definition get_value (self : LuxtronikDevice) (group_sensor_id : string)
  : prog (option Value) :=
  let* sensor := get_sensor_by_id self group_sensor_id in
  match sensor with
  | None => Pure None
  | Some s => Pure (Some (value s))
  end.

Definition write_warning : string :=
  "Couldn't write luxtronik parameter %s with value %s because of lock timeout %s".
Definition update_warning : string :=
  "Couldn't read luxtronik data because of lock timeout %s".

Definition write (self : LuxtronikDevice) (parameter : string) (v : Value)
    (update_immediately_after_write : bool) : prog unit :=
  try_finally
    (let* got := lock_acquire true (_lock_timeout_sec self) in
     if got then
       _luxtronik_parameters_set parameter v;;
       _luxtronik_write;;
       if update_immediately_after_write then _luxtronik_read else Pure tt
     else
       LOGGER_warning write_warning
         [LStr parameter; LVal v; LCfg (_lock_timeout_sec self)])
    lock_release.

Definition MIN_TIME_BETWEEN_UPDATES : Z := 60.

(** [Throttle(min_time)] of the host platform, as the decorator of a method
    without result: a call it throttles returns [None] at once and runs
    nothing of the method; any other call runs the method and returns as it
    does.  Which calls it throttles is the platform's decision (its clock,
    its record of the last run, its own lock against a run in progress):
    [throttled] is that decision for the call at hand. *)
Definition Throttle (min_time : Z) (method : prog unit) (throttled : bool)
  : prog unit :=
  if throttled then Pure tt else method.

Definition update (self : LuxtronikDevice) : bool → prog unit :=
  Throttle MIN_TIME_BETWEEN_UPDATES
    (try_finally
       (let* got := lock_acquire true (_lock_timeout_sec self) in
        if got then _luxtronik_read
        else LOGGER_warning update_warning [LCfg (_lock_timeout_sec self)])
       lock_release).

(** [throttled]: the decision of [Throttle] for the call [self.update()]
    that the constructor makes. *)
Definition __init__ (host port safe lock_timeout_sec : cval) (throttled : bool)
  : prog LuxtronikDevice :=
  threading_Lock;;
  let self := {| _host := host; _port := port;
                 _lock_timeout_sec := lock_timeout_sec |} in
  Lux_ host port safe;;
  update self throttled;;
  Pure self.

(** ** The shared objects and one step of one thread *)

(** [lock] is the state of [self.lock]: [None] when unlocked, [Some t] when
    locked, [t] being the thread whose [acquire] locked it (Python keeps no
    owner: any thread may release).  [_luxtronik] is the device handle and
    [LOGGER] the warnings logged so far, oldest first. *)
Record World := {
  lock : option nat;
  _luxtronik : Lux;
  LOGGER : list (string * list logarg);
}.

Definition set_lock (l : option nat) (w : World) : World :=
  {| lock := l; _luxtronik := _luxtronik w; LOGGER := LOGGER w |}.
Definition set_luxtronik (d : Lux) (w : World) : World :=
  {| lock := lock w; _luxtronik := d; LOGGER := LOGGER w |}.
Definition add_warning (msg : string) (args : list logarg) (w : World) : World :=
  {| lock := lock w; _luxtronik := _luxtronik w;
     LOGGER := LOGGER w ++ [(msg, args)] |}.

(** A thread is between two commands, or inside a call on the device
    handle that has started and not yet returned. *)
Inductive thread (A : Type) :=
| Running (p : prog A)
| InFlight (op : devop) (k : outcome unit → prog A).
Arguments Running {A} p.
Arguments InFlight {A} op k.

Inductive event :=
| EvNewLock
| EvAcquire (blocking : bool) (timeout : cval) (r : outcome bool)
| EvRelease (r : outcome unit)
| EvBegin (op : devop)
| EvEnd (op : devop) (r : outcome unit)
| EvGet (tbl : table) (sensor_id : string)
| EvWarning (msg : string) (args : list logarg).

(** Argument check of [Lock.acquire(blocking, timeout)]: the wait in
    seconds, [-1] for an unbounded wait. *)
Definition acquire_seconds (blocking : bool) (z : Z) : outcome Z :=
  if negb blocking && negb (z =? -1) then Raise ValueError
  else if (z <? 0) && negb (z =? -1) then Raise ValueError
  else if TIMEOUT_MAX <? z then Raise OverflowError
  else Ret z.

Definition acquire_args (blocking : bool) (timeout : cval) : outcome Z :=
  match timeout with
  | CStr _ => Raise TypeError
  | CInt z => acquire_seconds blocking z
  | CBool b => acquire_seconds blocking (Z.b2z b)
  end.

Definition lux_exec (op : devop) (d : Lux) : Lux * option exn :=
  match op with
  | OpNew host port safe => Lux_new host port safe
  | OpSet parameter v => Lux_parameters_set parameter v d
  | OpWrite => Lux_write d
  | OpRead => Lux_read d
  end.

Definition outcome_of (e : option exn) : outcome unit :=
  match e with
  | None => Ret tt
  | Some e => Raise e
  end.

(** One step of thread [t].  [None]: the thread has finished, or waits on
    the lock without a timeout.  A wait with a timeout that finds the lock
    taken returns [False]: the step stands for the whole wait, the scheduler
    choosing how long other threads run before it. *)
Definition step {A} (t : nat) (w : World) (th : thread A)
  : option (World * thread A * event) :=
  match th with
  | Running (Pure _) => None
  | Running (Throw _) => None
  | Running (NewLock k) => Some (set_lock None w, Running k, EvNewLock)
  | Running (Acquire b timeout k) =>
      match acquire_args b timeout with
      | Raise e => Some (w, Running (k (Raise e)), EvAcquire b timeout (Raise e))
      | Ret secs =>
          match lock w with
          | None =>
              Some (set_lock (Some t) w, Running (k (Ret true)),
                    EvAcquire b timeout (Ret true))
          | Some _ =>
              if b && (secs =? -1) then None
              else Some (w, Running (k (Ret false)), EvAcquire b timeout (Ret false))
          end
      end
  | Running (Release k) =>
      match lock w with
      | Some _ => Some (set_lock None w, Running (k (Ret tt)), EvRelease (Ret tt))
      | None =>
          Some (w, Running (k (Raise RuntimeError)), EvRelease (Raise RuntimeError))
      end
  | Running (LuxCall op k) => Some (w, InFlight op k, EvBegin op)
  | InFlight op k =>
      let '(d, e) := lux_exec op (_luxtronik w) in
      Some (set_luxtronik d w, Running (k (outcome_of e)), EvEnd op (outcome_of e))
  | Running (LuxGet tbl i k) =>
      Some (w, Running (k (table_get tbl (_luxtronik w) i)), EvGet tbl i)
  | Running (Warning msg args k) =>
      Some (add_warning msg args w, Running k, EvWarning msg args)
  end.

(** The result of a thread that has finished. *)
Definition result {A} (th : thread A) : option (outcome A) :=
  match th with
  | Running (Pure a) => Some (Ret a)
  | Running (Throw e) => Some (Raise e)
  | _ => None
  end.

Definition in_flight {A} (th : thread A) : bool :=
  match th with
  | InFlight _ _ => true
  | Running _ => false
  end.

(** ** Interleavings *)

(** [run sched w pool]: the threads of [pool] take steps in the order
    [sched] names them; a thread that cannot step is passed over.  The trace
    lists the steps taken, oldest first, with the thread that took each. *)
Fixpoint run (sched : list nat) (w : World) (pool : list (thread unit))
  : World * list (thread unit) * list (nat * event) :=
  match sched with
  | [] => (w, pool, [])
  | t :: sched' =>
      match pool !! t with
      | None => run sched' w pool
      | Some th =>
          match step t w th with
          | None => run sched' w pool
          | Some (w', th', ev) =>
              let '(wf, poolf, tr) := run sched' w' (<[t := th']> pool) in
              (wf, poolf, (t, ev) :: tr)
          end
      end
  end.

(** The steps of one thread, whatever the other threads do to the shared
    objects in between. *)
Inductive lsteps {A} (t : nat) : thread A → list event → thread A → Prop :=
| lsteps_nil th : lsteps t th [] th
| lsteps_cons th w w' th1 ev evs th2 :
    step t w th = Some (w', th1, ev) →
    lsteps t th1 evs th2 →
    lsteps t th (ev :: evs) th2.

(** The events of thread [t] in a trace. *)
Definition events_of (t : nat) (tr : list (nat * event)) : list event :=
  omap (λ '(t', ev), if decide (t' = t) then Some ev else None) tr.

(** The device calls begun in a list of events. *)
Definition begun (evs : list event) : list devop :=
  omap (λ ev, match ev with EvBegin op => Some op | _ => None end) evs.

Definition number_in_flight (pool : list (thread unit)) : nat :=
  length (filter (λ th, in_flight th = true) pool).

(** [exec n t w th]: thread [t] alone takes up to [n] steps from [w]. *)
Fixpoint exec {A} (n : nat) (t : nat) (w : World) (th : thread A)
  : World * thread A * list event :=
  match n with
  | O => (w, th, [])
  | S n' =>
      match step t w th with
      | None => (w, th, [])
      | Some (w', th', ev) =>
          let '(wf, thf, evs) := exec n' t w' th' in
          (wf, thf, ev :: evs)
      end
  end.

(** The two locked methods, as calls; for [update], with the decision of
    its [Throttle]. *)
Inductive call :=
| CallWrite (parameter : string) (v : Value) (update_immediately_after_write : bool)
| CallUpdate (throttled : bool).

Definition invoke (self : LuxtronikDevice) (c : call) : prog unit :=
  match c with
  | CallWrite parameter v u => write self parameter v u
  | CallUpdate throttled => update self throttled
  end.

(** Is this a call that [Throttle] turns away? *)
Definition throttled_call (c : call) : bool :=
  match c with
  | CallWrite _ _ _ => false
  | CallUpdate throttled => throttled
  end.

(** ** What the design note says, for comparison *)

(** The device calls of a write, in the order the note gives them: set the
    parameter, flush, and the follow-up read if configured. *)
Definition write_ops (parameter : string) (v : Value) (u : bool) : list devop :=
  OpSet parameter v :: OpWrite :: (if u then [OpRead] else []).

(** The table a group tag names: one of the three categories, or none. *)
Definition group_table (group : string) : option table :=
  if decide (group = CONF_PARAMETERS) then Some Parameters
  else if decide (group = CONF_CALCULATIONS) then Some Calculations
  else if decide (group = CONF_VISIBILITIES) then Some Visibilities
  else None.

(** The value of an identifier [group.sensor_id] in the tables of [d]. *)
Definition lookup_value (d : Lux) (group sensor_id : string) : option Value :=
  match group_table group with
  | Some tbl => value <$> table_get tbl d sensor_id
  | None => None
  end.

Definition is_get (ev : event) : Prop :=
  match ev with
  | EvGet _ _ => True
  | _ => False
  end.

(** ** Properties of every execution of a command tree *)

(** [all_paths ok p pre]: along every path through [p], whatever the
    commands answer, [ok] holds of the events so far (after the earlier
    events [pre]) at each point where the thread may be observed: with
    [None] while it runs, with its result when it has finished. *)
Fixpoint all_paths {A} (ok : list event → option (outcome A) → Prop)
    (p : prog A) (pre : list event) : Prop :=
  match p with
  | Pure a => ok pre (Some (Ret a))
  | Throw e => ok pre (Some (Raise e))
  | NewLock k => ok pre None ∧ all_paths ok k (pre ++ [EvNewLock])
  | Acquire b tmo k =>
      ok pre None ∧ ∀ r, all_paths ok (k r) (pre ++ [EvAcquire b tmo r])
  | Release k => ok pre None ∧ ∀ r, all_paths ok (k r) (pre ++ [EvRelease r])
  | LuxCall op k =>
      ok pre None ∧ ok (pre ++ [EvBegin op]) None ∧
      ∀ r, all_paths ok (k r) ((pre ++ [EvBegin op]) ++ [EvEnd op r])
  | LuxGet tbl i k => ok pre None ∧ ∀ r, all_paths ok (k r) (pre ++ [EvGet tbl i])
  | Warning msg args k =>
      ok pre None ∧ all_paths ok k (pre ++ [EvWarning msg args])
  end.

Definition all_paths_th {A} (ok : list event → option (outcome A) → Prop)
    (th : thread A) (pre : list event) : Prop :=
  match th with
  | Running p => all_paths ok p pre
  | InFlight op k => ok pre None ∧ ∀ r, all_paths ok (k r) (pre ++ [EvEnd op r])
  end.

(** Did an [acquire] of these events return [True]?  Did one return
    [False]? *)
Definition acquired (evs : list event) : bool :=
  existsb (λ ev, match ev with
                 | EvAcquire _ _ (Ret true) => true
                 | _ => false
                 end) evs.

Definition timed_out (evs : list event) : bool :=
  existsb (λ ev, match ev with
                 | EvAcquire _ _ (Ret false) => true
                 | _ => false
                 end) evs.



(** The warnings logged in a list of events. *)
Definition warnings (evs : list event) : list (string * list logarg) :=
  omap (λ ev, match ev with
              | EvWarning msg args => Some (msg, args)
              | _ => None
              end) evs.

(** After an [acquire] that returned [True], the device calls begun so far
    are the first of [write_ops], and all of them once the write has
    returned normally. *)
Definition write_order_ok (parameter : string) (v : Value) (u : bool)
    (evs : list event) (res : option (outcome unit)) : Prop :=
  acquired evs = true →
  begun evs `prefix_of` write_ops parameter v u ∧
  (res = Some (Ret tt) → begun evs = write_ops parameter v u).

Definition ends_with_release (evs : list event) : Prop :=
  match last evs with
  | Some (EvRelease _) => True
  | _ => False
  end.


(** ** Holding the lock *)

Definition released (evs : list event) : bool :=
  existsb (λ ev, match ev with EvRelease _ => true | _ => false end) evs.

(** A thread holds the lock between an [acquire] that returned [True] and
    its [release]. *)
Definition holding (evs : list event) : bool :=
  acquired evs && negb (released evs).

(** No [acquire] of these events timed out or raised. *)
Definition clean (evs : list event) : bool :=
  forallb (λ ev, match ev with
                 | EvAcquire _ _ (Ret true) => true
                 | EvAcquire _ _ _ => false
                 | _ => true
                 end) evs.

(** The thread creates no lock, begins device calls only while it holds
    the lock, and releases only a lock it holds. *)
Definition discipline (evs : list event) : bool :=
  forallb (λ ev, match ev with EvNewLock => false | _ => true end) evs &&
  match last evs with
  | Some (EvBegin _) => holding evs
  | Some (EvRelease _) => holding (removelast evs)
  | _ => true
  end.

Definition exclusive_ok (evs : list event) (res : option (outcome unit)) : Prop :=
  clean evs = true → discipline evs = true.


(** The threads of a pool all run calls on [self], and [hist] records what
    each has done. *)
Definition pool_of (self : LuxtronikDevice) (hist : list (nat * event))
    (pool : list (thread unit)) : Prop :=
  ∀ t th, pool !! t = Some th →
          ∃ c, lsteps t (Running (invoke self c)) (events_of t hist) th.

(** Only the thread that holds the lock has it locked. *)
Definition lock_owned (hist : list (nat * event)) (w : World) : Prop :=
  clean (hist.*2) = true →
  ∀ t, holding (events_of t hist) = true → lock w = Some t.


(** ** CONFIG_SCHEMA, setup and setup_int *)

Inductive marker := Required | Optional.

(** One key of a mapping schema: [marker(key, default=...): schema]. *)
Record field := {
  f_marker : marker;
  f_key : string;
  f_default : option cval;
  f_schema : cval → option cval;
}.

(** [vol.Coerce(int)] *)
Definition Coerce_int (v : cval) : option Z :=
  match v with
  | CInt z => Some z
  | CBool b => Some (Z.b2z b)
  | CStr s => py_int s
  end.

(** [cv.port = vol.All(vol.Coerce(int), vol.Range(min=1, max=65535))] *)
Definition cv_port (v : cval) : option cval :=
  match Coerce_int v with
  | Some z => if (1 <=? z) && (z <=? 65535) then Some (CInt z) else None
  | None => None
  end.

(** [cv.positive_int = vol.All(vol.Coerce(int), vol.Range(min=0))] *)
Definition cv_positive_int (v : cval) : option cval :=
  match Coerce_int v with
  | Some z => if 0 <=? z then Some (CInt z) else None
  | None => None
  end.

(** The schema under the key [DOMAIN]. *)
Definition DOMAIN_SCHEMA : list field := [
  {| f_marker := Required; f_key := CONF_HOST; f_default := None;
     f_schema := cv_string |};
  {| f_marker := Required; f_key := CONF_PORT;
     f_default := Some (CInt DEFAULT_PORT); f_schema := cv_port |};
  {| f_marker := Optional; f_key := CONF_SAFE;
     f_default := Some (CBool true); f_schema := cv_boolean |};
  {| f_marker := Optional; f_key := CONF_LOCK_TIMEOUT;
     f_default := Some (CInt 30); f_schema := cv_positive_int |};
  {| f_marker := Optional; f_key := CONF_UPDATE_IMMEDIATELY_AFTER_WRITE;
     f_default := Some (CBool false); f_schema := cv_boolean |}
].

(** Validation of a mapping against a schema that allows no extra keys:
    the defaults of absent keys are inserted, then every key must be one of
    the schema and its value must pass that key's validator, and every
    required key must be there. *)
Definition insert_defaults (schema : list field) (c : conf) : conf :=
  foldr (λ f kvm,
           match f_default f, kvm !! f_key f with
           | Some d, None => <[f_key f := d]> kvm
           | _, _ => kvm
           end) c schema.

Definition validate_key (schema : list field) (key : string) (v : cval)
  : option cval :=
  match find (λ f, bool_decide (f_key f = key)) schema with
  | Some f => f_schema f v
  | None => None
  end.

Definition required_present (schema : list field) (kvm : conf) : bool :=
  forallb (λ f, match f_marker f with
                | Required => bool_decide (is_Some (kvm !! f_key f))
                | Optional => true
                end) schema.

Definition all_valid (schema : list field) (kvm : conf) : bool :=
  forallb (λ kv, bool_decide (is_Some (validate_key schema kv.1 kv.2)))
    (map_to_list kvm).

Definition validate_mapping (schema : list field) (c : conf) : option conf :=
  let kvm := insert_defaults schema c in
  let out := map_imap (validate_key schema) kvm in
  if all_valid schema kvm && required_present schema kvm
  then Some out else None.

(** [CONFIG_SCHEMA]: the section under [DOMAIN], when there is one, is
    validated; other keys pass ([extra=vol.ALLOW_EXTRA]). *)
Definition CONFIG_SCHEMA (config : gmap string conf) : option (gmap string conf) :=
  match config !! DOMAIN with
  | None => Some config
  | Some c =>
      match validate_mapping DOMAIN_SCHEMA c with
      | Some c' => Some (<[DOMAIN := c']> config)
      | None => None
      end
  end.

(** [conf[key]] *)
Definition py_getitem (c : conf) (key : string) : outcome cval :=
  match c !! key with
  | Some v => Ret v
  | None => Raise (KeyError key)
  end.

(** [setup_int] returns the device it stores under [hass.data[DOMAIN]].
    (The closure [write_parameter] it defines is registered nowhere.)
    [throttled] is passed on to the constructor. *)
Definition setup_int (c : conf) (throttled : bool) : prog LuxtronikDevice :=
  let* host := lift (py_getitem c CONF_HOST) in
  let* port := lift (py_getitem c CONF_PORT) in
  let* safe := lift (py_getitem c CONF_SAFE) in
  let* lock_timeout := lift (py_getitem c CONF_LOCK_TIMEOUT) in
  let* update_immediately_after_write :=
    lift (py_getitem c CONF_UPDATE_IMMEDIATELY_AFTER_WRITE) in
  let* luxtronik := __init__ host port safe lock_timeout throttled in
  Pure luxtronik.

(** [setup]: [None] when the configuration has no section [DOMAIN]. *)
Definition setup (config : gmap string conf) (throttled : bool)
  : prog (option LuxtronikDevice) :=
  match config !! DOMAIN with
  | None => Pure None
  | Some c => let* luxtronik := setup_int c throttled in Pure (Some luxtronik)
  end.

(** ** Further vocabulary for the properties below *)

(** The device calls of a call, in order; a throttled update has none. *)
Definition call_ops (c : call) : list devop :=
  match c with
  | CallWrite parameter v u => write_ops parameter v u
  | CallUpdate throttled => if throttled then [] else [OpRead]
  end.

(** The warning a call logs when its wait on the lock times out. *)
Definition call_warning (self : LuxtronikDevice) (c : call)
  : string * list logarg :=
  match c with
  | CallWrite parameter v _ =>
      (write_warning, [LStr parameter; LVal v; LCfg (_lock_timeout_sec self)])
  | CallUpdate _ => (update_warning, [LCfg (_lock_timeout_sec self)])
  end.

(** The exceptions raised by the commands of these events, oldest first. *)
Definition raised (evs : list event) : list exn :=
  omap (λ ev, match ev with
              | EvAcquire _ _ (Raise e) => Some e
              | EvRelease (Raise e) => Some e
              | EvEnd _ (Raise e) => Some e
              | _ => None
              end) evs.

(** What a call returns after these events: normally, or by raising the
    last exception raised. *)
Definition outcome_after (evs : list event) : outcome unit :=
  match last (raised evs) with
  | Some e => Raise e
  | None => Ret tt
  end.

(** No device call is begun after one has raised. *)
Fixpoint no_call_after_error (evs : list event) : bool :=
  match evs with
  | [] => true
  | EvEnd _ (Raise _) :: rest =>
      forallb (λ ev, match ev with EvBegin _ => false | _ => true end) rest
  | _ :: rest => no_call_after_error rest
  end.

Definition outcome_ok (evs : list event) (res : option (outcome unit)) : Prop :=
  no_call_after_error evs = true ∧ ∀ r, res = Some r → r = outcome_after evs.

(** The device calls [ops] made one after the other on [d], up to the
    first that raises. *)
Fixpoint apply_ops (ops : list devop) (d : Lux) : Lux * option exn :=
  match ops with
  | [] => (d, None)
  | op :: rest =>
      match lux_exec op d with
      | (d', None) => apply_ops rest d'
      | (d', Some e) => (d', Some e)
      end
  end.

(** The keys [setup_int] reads, in the order it reads them. *)
Definition setup_keys : list string :=
  [CONF_HOST; CONF_PORT; CONF_SAFE; CONF_LOCK_TIMEOUT;
   CONF_UPDATE_IMMEDIATELY_AFTER_WRITE].

Definition first_missing (c : conf) : option string :=
  find (λ k, bool_decide (c !! k = None)) setup_keys.

(** ['.'.join(l)] *)
Fixpoint join_dot (l : list string) : string :=
  match l with
  | [] => ""
  | [s] => s
  | s :: rest => s +:+ String dot (join_dot rest)
  end.

End Wrapper.

Arguments Pure {_ A} a.
Arguments Throw {_ A} e.
Arguments NewLock {_ A} k.
Arguments Acquire {_ A} blocking timeout k.
Arguments Release {_ A} k.
Arguments LuxCall {_ A} op k.
Arguments LuxGet {_ A} tbl sensor_id k.
Arguments Warning {_ A} msg args k.
Arguments Running {_ A} p.
Arguments InFlight {_ A} op k.

(** ** A concrete setting for examples *)

Definition demo_const : Const := {|
  DOMAIN := "luxtronik";
  CONF_HOST := "host";
  CONF_PORT := "port";
  CONF_SAFE := "safe";
  CONF_LOCK_TIMEOUT := "lock_timeout";
  CONF_UPDATE_IMMEDIATELY_AFTER_WRITE := "update_immediately_after_write";
  CONF_PARAMETERS := "parameters";
  CONF_CALCULATIONS := "calculations";
  CONF_VISIBILITIES := "visibilities";
  DEFAULT_PORT := 8889;
|}.

Definition demo_host : Host := {|
  TIMEOUT_MAX := 4294967;
  py_int := λ _, None;
  cv_string := λ v, match v with CStr _ => Some v | _ => None end;
  cv_boolean := λ v, match v with CBool _ => Some v | _ => None end;
|}.

(** A device handle with three tables and a queue of pending writes; it
    rejects the empty parameter name. *)
Record demo_lux := {
  parameters : gmap string Z;
  calculations : gmap string Z;
  visibilities : gmap string Z;
  queue : list (string * Z);
}.

Definition demo_table (tbl : table) (d : demo_lux) : gmap string Z :=
  match tbl with
  | Parameters => parameters d
  | Calculations => calculations d
  | Visibilities => visibilities d
  end.

Definition demo_empty : demo_lux :=
  {| parameters := ∅; calculations := ∅; visibilities := ∅; queue := [] |}.

Definition demo_set (parameter : string) (v : Z) (d : demo_lux)
  : demo_lux * option exn :=
  if String.eqb parameter "" then (d, Some (VendorError 1))
  else ({| parameters := parameters d; calculations := calculations d;
           visibilities := visibilities d;
           queue := queue d ++ [(parameter, v)] |}, None).

Definition demo_flush (d : demo_lux) : demo_lux * option exn :=
  ({| parameters := foldl (λ m kv, <[kv.1 := kv.2]> m) (parameters d) (queue d);
      calculations := calculations d; visibilities := visibilities d;
      queue := [] |}, None).

Definition demo_vendor : Vendor := {|
  Value := Z;
  Sensor := Z;
  value := λ z, z;
  Lux := demo_lux;
  table_get := λ tbl d i, demo_table tbl d !! i;
  Lux_new := λ _ _ _, (demo_empty, None);
  Lux_parameters_set := demo_set;
  Lux_write := demo_flush;
  Lux_read := λ d, (d, None);
|}.

Definition demo_self : @LuxtronikDevice :=
  {| _host := CStr "192.168.0.2"; _port := CInt 8889;
     _lock_timeout_sec := CInt 30 |}.

Definition demo_world : @World demo_vendor :=
  {| lock := None; _luxtronik := (demo_empty : @Lux demo_vendor); LOGGER := [] |}.

(** Thread 0 polls (an update that is not throttled), threads 1 and 2
    serve two write requests. *)
Definition demo_pool : list (@thread demo_vendor unit) := [
  Running (@update demo_vendor demo_self false);
  Running (@write demo_vendor demo_self "ID_Ba_Hz_akt" (1 : @Value demo_vendor) false);
  Running (@write demo_vendor demo_self "ID_Ba_Bw_akt" (2 : @Value demo_vendor) true)
].

(** 0 takes the lock and starts its read; 1 gives up waiting, warns and
    runs its [finally]; 2 takes the lock and starts its own device call. *)
Definition overlap_schedule : list nat := [0; 0; 1; 1; 1; 2; 2]%nat.

(** 0 takes the lock and starts its read; 1 gives up waiting; 0 finishes and
    releases; 1 warns and runs its [finally]. *)
Definition late_release_schedule : list nat := [0; 0; 1; 0; 0; 1; 1]%nat.

Definition demo_config : gmap string conf :=
  {[ "luxtronik" := {[ "host" := CStr "192.168.0.2" ]} ]}.

(** The section of [demo_config] after validation. *)
Definition demo_section : conf :=
  {[ "host" := CStr "192.168.0.2"; "port" := CInt 8889; "safe" := CBool true;
     "lock_timeout" := CInt 30;
     "update_immediately_after_write" := CBool false ]}.

(** A device handle after a read, and a world in which thread 0 holds the
    lock. *)
Definition demo_reading : demo_lux :=
  {| parameters := {[ "ID_Ba_Hz_akt" := 4 ]};
     calculations := {[ "ID_WEB_Temperatur_TVL" := 215 ]};
     visibilities := ∅; queue := [] |}.

Definition demo_world_held : @World demo_vendor :=
  {| lock := Some 0%nat; _luxtronik := (demo_reading : @Lux demo_vendor);
     LOGGER := [] |}.

(** A device handle library whose constructor cannot connect. *)
Definition demo_vendor_down : Vendor := {|
  Value := Z;
  Sensor := Z;
  value := λ z, z;
  Lux := demo_lux;
  table_get := λ tbl d i, demo_table tbl d !! i;
  Lux_new := λ _ _ _, (demo_empty, Some (VendorError 111));
  Lux_parameters_set := demo_set;
  Lux_write := demo_flush;
  Lux_read := λ d, (d, None);
|}.


(** Two calls, one after the other. *)
Definition demo_calls : list (@call demo_vendor) :=
  [CallUpdate false; CallWrite "ID_Ba_Hz_akt" (1 : @Value demo_vendor) false].

Definition serial_schedule : list nat :=
  [0; 0; 0; 0; 1; 1; 1; 1; 1; 1]%nat.

Definition demo_world_down : @World demo_vendor_down :=
  {| lock := None; _luxtronik := (demo_empty : @Lux demo_vendor_down);
     LOGGER := [] |}.

(** * Properties *)

Section Facts.
Context `{Const} `{Host} `{Vendor}.

(** ** Splitting at dots *)

Lemma split_dot_no_dot (s : string) :
  no_dot s = true → split_dot s = [s].
Proof.
  induction s as [|c s IH]; simpl; [done|].
  destruct (Ascii.eqb c dot); simpl; [done|].
  intros Hs. by rewrite IH.
Qed.

Lemma split_dot_app (g rest : string) :
  no_dot g = true → split_dot (g +:+ String dot rest) = g :: split_dot rest.
Proof.
  induction g as [|c g IH]; simpl; [done|].
  destruct (Ascii.eqb c dot); simpl; [done|].
  intros Hg. by rewrite IH.
Qed.

Lemma split_dot_two (g i tail : string) :
  no_dot g = true → no_dot i = true →
  tail = "" ∨ (∃ tail', tail = String dot tail') →
  ∃ more, split_dot (g +:+ String dot (i +:+ tail)) = g :: i :: more.
Proof.
  intros Hg Hi Ht. rewrite split_dot_app by done.
  destruct Ht as [->|[tail' ->]].
  - exists []. replace (i +:+ "") with i; [by rewrite split_dot_no_dot|].
    clear. induction i as [|a i IH]; [done|].
    change (String a i = String a (i +:+ "")). by rewrite <- IH.
  - exists (split_dot tail'). by rewrite split_dot_app.
Qed.

(** ** Executions *)

Lemma all_paths_now {A} (ok : list event → option (outcome A) → Prop)
    (th : thread A) (pre : list event) :
  all_paths_th ok th pre → ok pre (result th).
Proof. destruct th as [[]|]; simpl; tauto. Qed.

Lemma all_paths_step {A} (ok : list event → option (outcome A) → Prop)
    (t : nat) (w w' : World) (th th' : thread A) (ev : event) (pre : list event) :
  all_paths_th ok th pre →
  step t w th = Some (w', th', ev) →
  all_paths_th ok th' (pre ++ [ev]).
Proof.
  intros Hall Hstep. destruct th as [p|op k]; [destruct p|]; simpl in *.
  - done.
  - done.
  - simplify_eq. tauto.
  - destruct Hall as [_ Hall].
    destruct (acquire_args blocking timeout); [destruct (lock w)|];
      repeat case_match; simplify_eq; apply Hall.
  - destruct Hall as [_ Hall]. destruct (lock w); simplify_eq; apply Hall.
  - simplify_eq. simpl. tauto.
  - simplify_eq. simpl. apply Hall.
  - simplify_eq. simpl. tauto.
  - destruct (lux_exec op (_luxtronik w)). simplify_eq. simpl. apply Hall.
Qed.

Lemma all_paths_sound {A} (ok : list event → option (outcome A) → Prop)
    (t : nat) (th th' : thread A) (evs pre : list event) :
  lsteps t th evs th' →
  all_paths_th ok th pre →
  ok (pre ++ evs) (result th').
Proof.
  intros Hs. revert pre. induction Hs as [th|th w w' th1 ev evs th2 Hstep Hs IH];
    intros pre Hall.
  - rewrite app_nil_r. by apply all_paths_now.
  - replace (pre ++ ev :: evs) with ((pre ++ [ev]) ++ evs)
      by (by rewrite <- app_assoc).
    apply IH. by eapply all_paths_step.
Qed.

Lemma lsteps_snoc {A} (t : nat) (w w' : World) (th th1 th2 : thread A)
    (evs : list event) (ev : event) :
  lsteps t th evs th1 →
  step t w th1 = Some (w', th2, ev) →
  lsteps t th (evs ++ [ev]) th2.
Proof.
  induction 1 as [th|th wa wb tha eva evs thb Hstep Hs IH]; intros Hlast; simpl.
  - eapply lsteps_cons; [done|constructor].
  - eapply lsteps_cons; [done|]. by apply IH.
Qed.

Lemma exec_lsteps {A} (n t : nat) (w : World) (th : thread A) :
  lsteps t th (exec n t w th).2 (exec n t w th).1.2.
Proof.
  revert w th. induction n as [|n IH]; intros w th; simpl; [constructor|].
  destruct (step t w th) as [[[w' th'] ev]|] eqn:Hstep; [|constructor].
  specialize (IH w' th'). destruct (exec n t w' th') as [[wf thf] evs].
  simpl in *. by eapply lsteps_cons.
Qed.

Lemma run_lsteps (sched : list nat) (w : World) (pool : list (thread unit))
    (t : nat) (th : thread unit) :
  pool !! t = Some th →
  ∃ th', (run sched w pool).1.2 !! t = Some th' ∧
         lsteps t th (events_of t (run sched w pool).2) th'.
Proof.
  revert w pool th. induction sched as [|t0 sched IH]; intros w pool th Hth; simpl.
  - exists th. split; [done|constructor].
  - destruct (pool !! t0) as [th0|] eqn:Ht0; [|by apply IH].
    destruct (step t0 w th0) as [[[w' th0'] ev]|] eqn:Hstep; [|by apply IH].
    destruct (decide (t0 = t)) as [->|Hne].
    + assert (th0 = th) as -> by congruence.
      destruct (IH w' (<[t := th0']> pool) th0') as (th' & Hl & Hs).
      { apply list_lookup_insert_eq. by eapply lookup_lt_Some. }
      destruct (run sched w' (<[t := th0']> pool)) as [[wf poolf] tr].
      simpl in *. exists th'. split; [done|].
      unfold events_of in *. simpl. rewrite decide_True by done. simpl.
      by eapply lsteps_cons.
    + destruct (IH w' (<[t0 := th0']> pool) th) as (th' & Hl & Hs).
      { by rewrite list_lookup_insert_ne. }
      destruct (run sched w' (<[t0 := th0']> pool)) as [[wf poolf] tr].
      simpl in *. exists th'. split; [done|].
      unfold events_of in *. simpl. by rewrite decide_False by done.
Qed.

Lemma step_release_unlocks {A} (t : nat) (w w' : World) (th th' : thread A)
    (r : outcome unit) :
  step t w th = Some (w', th', EvRelease r) → lock w' = None.
Proof.
  destruct th as [p|op k]; [destruct p|]; simpl; intros Hstep;
    repeat case_match; by simplify_eq.
Qed.

(** ** get_value *)

(** C9: an identifier without a dot makes [get_value] raise [IndexError]:
    the call is finished at once with that exception, never with [None]. *)
Theorem get_value_no_dot_raises (self : LuxtronikDevice) (s : string) :
  no_dot s = true →
  result (Running (get_value self s)) = Some (Raise IndexError).
Proof.
  intros Hs. unfold get_value, get_sensor_by_id.
  by rewrite (split_dot_no_dot s Hs).
Qed.

Lemma get_sensor_by_id_split (self : LuxtronikDevice) (s g i : string)
    (more : list string) :
  split_dot s = g :: i :: more →
  get_sensor_by_id self s = get_sensor self g i.
Proof. intros Hs. unfold get_sensor_by_id. by rewrite Hs. Qed.

(** C4, amended: for an identifier with a dot, [get_value] takes the text
    before the first dot as group tag and the text up to the next dot (or
    the end) as sensor id, reads that id in the one table the tag names,
    and returns the entry's value; it returns [None] when the tag names no
    table or the table has no such entry.  The world is left as it was. *)
Theorem get_value_dotted (t : nat) (w : World) (self : LuxtronikDevice)
    (g i tail : string) :
  CONF_PARAMETERS ≠ CONF_CALCULATIONS →
  CONF_PARAMETERS ≠ CONF_VISIBILITIES →
  CONF_CALCULATIONS ≠ CONF_VISIBILITIES →
  no_dot g = true → no_dot i = true →
  tail = "" ∨ (∃ tail', tail = String dot tail') →
  exec 3 t w (Running (get_value self (g +:+ String dot (i +:+ tail)))) =
    (w, Running (Pure (lookup_value (_luxtronik w) g i)),
     match group_table g with
     | Some tbl => [EvGet tbl i]
     | None => []
     end).
Proof.
  intros Hpc Hpv Hcv Hg Hi Ht.
  destruct (split_dot_two g i tail Hg Hi Ht) as [more Hs].
  unfold get_value. rewrite (get_sensor_by_id_split _ _ _ _ _ Hs).
  unfold get_sensor, lookup_value, group_table.
  destruct (String.eqb_spec g CONF_PARAMETERS) as [->|Hp].
  - rewrite decide_True by done.
    destruct (String.eqb_spec CONF_PARAMETERS CONF_CALCULATIONS); [done|].
    destruct (String.eqb_spec CONF_PARAMETERS CONF_VISIBILITIES); [done|].
    simpl. by destruct (table_get Parameters (_luxtronik w) i).
  - rewrite decide_False by done.
    destruct (String.eqb_spec g CONF_CALCULATIONS) as [->|Hc].
    + rewrite decide_True by done.
      destruct (String.eqb_spec CONF_CALCULATIONS CONF_VISIBILITIES); [done|].
      simpl. by destruct (table_get Calculations (_luxtronik w) i).
    + rewrite decide_False by done.
      destruct (String.eqb_spec g CONF_VISIBILITIES) as [->|Hv].
      * rewrite decide_True by done.
        simpl. by destruct (table_get Visibilities (_luxtronik w) i).
      * by rewrite decide_False by done.
Qed.

(** C6: [get_value] takes no lock and changes nothing: run alone from any
    world, for any number of steps, it only reads the tables, and the world
    after it is the world before it. *)
Theorem get_value_frame (n t : nat) (w : World) (self : LuxtronikDevice)
    (group_sensor_id : string) :
  (exec n t w (Running (get_value self group_sensor_id))).1.1 = w ∧
  Forall is_get (exec n t w (Running (get_value self group_sensor_id))).2.
Proof.
  unfold get_value, get_sensor_by_id, get_sensor.
  destruct (split_dot group_sensor_id) as [|g [|i more]]; simpl;
    try (destruct n; simpl; by auto).
  destruct (String.eqb g CONF_PARAMETERS), (String.eqb g CONF_CALCULATIONS),
    (String.eqb g CONF_VISIBILITIES); simpl;
    repeat (match goal with
            | |- context [table_get ?tbl ?d ?i] => destruct (table_get tbl d i); simpl
            | |- context [exec ?n _ _ _] => is_var n; destruct n; simpl
            end);
    repeat split; repeat constructor.
Qed.

(** ** The locked methods *)

Ltac walk :=
  repeat match goal with
         | |- all_paths _ _ _ => progress simpl
         | |- _ ∧ _ => split
         | |- ∀ r : outcome _, _ =>
             let r := fresh "r" in
             intros r; destruct r as [r|?]; [destruct r|]
         end.

Lemma write_order_paths (self : LuxtronikDevice) (p : string) (v : Value)
    (u : bool) :
  all_paths (write_order_ok p v u) (write self p v u) [].
Proof.
  unfold write. destruct u; walk; unfold write_order_ok; simpl;
    try discriminate; intros _; (split; [by eexists | done]).
Qed.

Lemma release_paths (self : LuxtronikDevice) (c : call) :
  throttled_call c = false →
  all_paths (λ evs res, is_Some res → ends_with_release evs) (invoke self c) [].
Proof.
  destruct c as [p v []|[]]; intros Hthr; try discriminate Hthr;
    unfold invoke, write, update, Throttle; walk;
    simpl; try (by intros [? ?]); done.
Qed.




(** C5: in every execution of [write] whose [acquire] returned [True], under
    any interference, the device calls it begins are, in this order, the
    parameter set, the flush and, only if [update_immediately_after_write],
    the read; a write that returns normally has made all of them. *)
Theorem write_order (t : nat) (self : LuxtronikDevice) (p : string) (v : Value)
    (u : bool) (evs : list event) (th : thread unit) :
  lsteps t (Running (write self p v u)) evs th →
  acquired evs = true →
  begun evs `prefix_of` write_ops p v u ∧
  (result th = Some (Ret tt) → begun evs = write_ops p v u).
Proof.
  intros Hs. apply (all_paths_sound (write_order_ok p v u) t _ _ evs [] Hs).
  apply write_order_paths.
Qed.

(** C3: whichever way [write] ends, under any interference, the step that
    ends it is the [lock.release()] of its [finally], and the lock is
    unlocked when that step is done. *)
Theorem write_releases (t : nat) (self : LuxtronikDevice) (p : string)
    (v : Value) (u : bool) (evs : list event) (th th' : thread unit)
    (w w' : World) (ev : event) :
  lsteps t (Running (write self p v u)) evs th →
  step t w th = Some (w', th', ev) →
  is_Some (result th') →
  (∃ r, ev = EvRelease r) ∧ lock w' = None.
Proof.
  intros Hs Hstep Hres.
  pose proof (lsteps_snoc t w w' _ _ _ evs ev Hs Hstep) as Hs'.
  pose proof (all_paths_sound _ t _ _ _ [] Hs'
                (release_paths self (CallWrite p v u) eq_refl) Hres) as Hrel.
  simpl in Hrel. unfold ends_with_release in Hrel. rewrite last_snoc in Hrel.
  destruct ev; try done. split; [by eexists|].
  by eapply step_release_unlocks.
Qed.

(** C10: in [write] and in [update] alike (an update that its throttle lets
    through), a caller that finds the lock locked and whose wait is bounded
    gets [False] from [acquire], logs the warning of its method, and then
    calls [lock.release()] all the same, on a lock it never took: if the
    lock is locked then, by whichever thread, it is unlocked; if it is
    unlocked then, [RuntimeError] is raised and leaves the method. *)
Theorem timed_out_caller_releases (t holder : nat) (self : LuxtronikDevice)
    (c : call) (w : World) (secs : Z) :
  throttled_call c = false →
  lock w = Some holder →
  acquire_args true (_lock_timeout_sec self) = Ret secs → secs ≠ -1 →
  ∃ th1 th2,
    step t w (Running (invoke self c)) =
      Some (w, th1, EvAcquire true (_lock_timeout_sec self) (Ret false)) ∧
    (∀ wa, step t wa th1 =
             Some (add_warning (call_warning self c).1 (call_warning self c).2 wa,
                   th2,
                   EvWarning (call_warning self c).1 (call_warning self c).2)) ∧
    (∀ wb holder', lock wb = Some holder' →
       step t wb th2 = Some (set_lock None wb, Running (Pure tt), EvRelease (Ret tt))) ∧
    (∀ wb, lock wb = None →
       step t wb th2 = Some (wb, Running (Throw RuntimeError),
                             EvRelease (Raise RuntimeError))).
Proof.
  intros Hthr Hl Hargs Hsecs.
  assert ((secs =? -1) = false) as Hne by (by apply Z.eqb_neq).
  destruct c as [p v u|[]]; try discriminate Hthr;
    unfold invoke, write, update, Throttle; simpl; rewrite Hargs, Hl, Hne.
  all: do 2 eexists; split; [reflexivity|].
  all: split; [intros wa; reflexivity|].
  all: split; [intros wb holder' Hb|intros wb Hb]; simpl; by rewrite Hb.
Qed.

(** ** The configured lock timeout *)

Lemma insert_defaults_lookup (schema : list field) (c : conf) (key : string) :
  NoDup (f_key <$> schema) →
  insert_defaults schema c !! key =
    match c !! key with
    | Some v => Some v
    | None =>
        match find (λ f, bool_decide (f_key f = key)) schema with
        | Some f => f_default f
        | None => None
        end
    end.
Proof.
  induction schema as [|f schema IH]; intros Hnd; simpl.
  - by destruct (c !! key).
  - apply NoDup_cons in Hnd as [Hf Hnd]. specialize (IH Hnd).
    set (m := insert_defaults schema c) in *.
    destruct (decide (f_key f = key)) as [<-|Hne].
    + rewrite bool_decide_true by done.
      assert (find (λ f0, bool_decide (f_key f0 = f_key f)) schema = None) as Hnone.
      { destruct (find _ schema) as [f'|] eqn:Hfind; [|done].
        apply find_some in Hfind as [Hin Heq].
        apply bool_decide_eq_true_1 in Heq. exfalso. apply Hf.
        rewrite <- Heq. apply list_elem_of_fmap. exists f'. split; [done|].
        by apply list_elem_of_In. }
      rewrite Hnone in IH.
      destruct (f_default f) as [d|], (m !! f_key f) as [v|] eqn:Hm;
        rewrite ?lookup_insert_eq, ?Hm; destruct (c !! f_key f); congruence.
    + rewrite bool_decide_false by done. rewrite <- IH.
      destruct (f_default f) as [d|], (m !! f_key f) as [v|];
        by rewrite ?lookup_insert_ne.
Qed.

Lemma validate_mapping_lookup (schema : list field) (c c' : conf) (key : string) :
  NoDup (f_key <$> schema) →
  validate_mapping schema c = Some c' →
  c' !! key =
    match find (λ f, bool_decide (f_key f = key)) schema with
    | Some f =>
        match c !! key with
        | Some v => f_schema f v
        | None => f_default f ≫= f_schema f
        end
    | None => None
    end.
Proof.
  intros Hnd Hval. unfold validate_mapping in Hval.
  destruct (_ && _); [|done]. injection Hval as <-.
  rewrite map_lookup_imap, (insert_defaults_lookup _ _ _ Hnd).
  unfold validate_key.
  by destruct (find _ schema) as [f|], (c !! key).
Qed.


(** [setup_int] on a section that was not validated and lacks the key
    (as [async_setup_entry] may pass it) raises [KeyError]: the default is
    the schema's. *)
Lemma setup_int_without_timeout (c : conf) (host port safe : cval)
    (throttled : bool) :
  c !! CONF_HOST = Some host → c !! CONF_PORT = Some port →
  c !! CONF_SAFE = Some safe → c !! CONF_LOCK_TIMEOUT = None →
  result (Running (setup_int c throttled))
  = Some (Raise (KeyError CONF_LOCK_TIMEOUT)).
Proof.
  intros Hh Hp Hs Hl. unfold setup_int, py_getitem. by rewrite Hh, Hp, Hs, Hl.
Qed.

Lemma setup_paths (config : gmap string conf) (c : conf) (throttled : bool) :
  config !! DOMAIN = Some c →
  all_paths (λ _ res, ∀ self, res = Some (Ret (Some self)) →
                              c !! CONF_LOCK_TIMEOUT = Some (_lock_timeout_sec self))
    (setup config throttled) [].
Proof.
  intros Hc. unfold setup. rewrite Hc. unfold setup_int, py_getitem.
  destruct (c !! CONF_HOST), (c !! CONF_PORT), (c !! CONF_SAFE),
    (c !! CONF_LOCK_TIMEOUT), (c !! CONF_UPDATE_IMMEDIATELY_AFTER_WRITE);
    simpl; try by intros ? [=].
  destruct throttled; unfold __init__, update, Throttle; walk; intros ? [=];
    by simplify_eq.
Qed.



(** ** Mutual exclusion as long as no wait times out *)

Lemma exclusive_paths (self : LuxtronikDevice) (c : call) :
  all_paths exclusive_ok (invoke self c) [].
Proof.
  destruct c as [p v []|[]]; unfold invoke, write, update, Throttle; walk;
    unfold exclusive_ok; simpl; done.
Qed.

Lemma step_in_flight {A} (t : nat) (w w' : World) (th th' : thread A) (ev : event) :
  step t w th = Some (w', th', ev) →
  in_flight th' = true → ∃ op, ev = EvBegin op.
Proof.
  destruct th as [p|op k]; [destruct p|]; simpl; intros Hstep Hin;
    repeat case_match; simplify_eq; by eauto.
Qed.

Lemma lsteps_in_flight {A} (t : nat) (th th' : thread A) (evs : list event) :
  lsteps t th evs th' → evs ≠ [] → in_flight th' = true →
  ∃ op, last evs = Some (EvBegin op).
Proof.
  induction 1 as [th|th w w' th1 ev evs th2 Hstep Hs IH]; intros Hne Hin; [done|].
  destruct evs as [|ev' evs].
  - inversion Hs; subst. destruct (step_in_flight _ _ _ _ _ _ Hstep Hin) as [op ->].
    by exists op.
  - destruct IH as [op Hop]; [done..|]. exists op. by rewrite last_cons, Hop.
Qed.

Lemma step_lock {A} (t : nat) (w w' : World) (th th' : thread A) (ev : event) :
  step t w th = Some (w', th', ev) →
  match ev with
  | EvNewLock => True
  | EvAcquire _ _ (Ret true) => lock w = None ∧ lock w' = Some t
  | EvRelease _ => lock w' = None
  | _ => lock w' = lock w
  end.
Proof.
  destruct th as [p|op k]; [destruct p|]; simpl; intros Hstep;
    repeat case_match; simplify_eq; by eauto.
Qed.


Lemma events_of_snoc (t t0 : nat) (hist : list (nat * event)) (ev : event) :
  events_of t (hist ++ [(t0, ev)]) =
    events_of t hist ++ (if decide (t0 = t) then [ev] else []).
Proof.
  unfold events_of. rewrite omap_app. simpl. by destruct (decide (t0 = t)).
Qed.

Lemma clean_events_of (t : nat) (hist : list (nat * event)) :
  clean (hist.*2) = true → clean (events_of t hist) = true.
Proof.
  induction hist as [|[t0 ev] hist IH]; simpl; [done|].
  intros [Hev Hh]%andb_prop. unfold events_of in *. simpl.
  destruct (decide (t0 = t)); simpl; rewrite ?Hev; by apply IH.
Qed.

Lemma holding_snoc (evs : list event) (ev : event) :
  holding (evs ++ [ev]) =
    match ev with
    | EvAcquire _ _ (Ret true) => negb (released evs)
    | EvRelease _ => false
    | _ => holding evs
    end.
Proof.
  unfold holding, acquired, released. rewrite !existsb_app. simpl.
  destruct ev as [| ? ? [[]|]| | | | |]; simpl;
    by rewrite ?orb_false_r, ?orb_true_r, ?andb_false_r.
Qed.

Lemma step_keeps_owner (self : LuxtronikDevice) (hist : list (nat * event))
    (pool : list (thread unit)) (w w' : World) (t0 : nat)
    (th0 th1 : thread unit) (ev : event) :
  pool_of self hist pool → lock_owned hist w →
  pool !! t0 = Some th0 → step t0 w th0 = Some (w', th1, ev) →
  pool_of self (hist ++ [(t0, ev)]) (<[t0 := th1]> pool) ∧
  lock_owned (hist ++ [(t0, ev)]) w'.
Proof.
  intros Hpool Hown Ht0 Hstep.
  destruct (Hpool t0 th0 Ht0) as [c0 Hs0].
  pose proof (lsteps_snoc _ _ _ _ _ _ _ _ Hs0 Hstep) as Hs1.
  split.
  - intros t th Hth. rewrite events_of_snoc.
    destruct (decide (t0 = t)) as [->|Hne].
    + rewrite list_lookup_insert_eq in Hth by (by eapply lookup_lt_Some).
      simplify_eq. by exists c0.
    + rewrite list_lookup_insert_ne in Hth by done. rewrite app_nil_r.
      by apply Hpool.
  - intros Hclean t Hhold.
    rewrite fmap_app, (forallb_app _ : ∀ l1 l2, clean (l1 ++ l2) = _) in Hclean.
    apply andb_prop in Hclean as [Hclean Hev].
    specialize (Hown Hclean).
    assert (clean (events_of t0 hist ++ [ev]) = true) as Hclean0.
    { unfold clean. rewrite forallb_app. fold (clean (events_of t0 hist)).
      rewrite (clean_events_of _ _ Hclean). exact Hev. }
    pose proof (all_paths_sound _ t0 _ _ _ [] Hs1 (exclusive_paths self c0)
                  Hclean0) as Hdisc.
    simpl in Hdisc. unfold discipline in Hdisc.
    apply andb_prop in Hdisc as [Hnew Hlast].
    rewrite forallb_app in Hnew. apply andb_prop in Hnew as [_ Hnew].
    rewrite last_snoc in Hlast.
    pose proof (step_lock _ _ _ _ _ _ Hstep) as Hlock.
    rewrite events_of_snoc in Hhold.
    destruct (decide (t0 = t)) as [->|Hne].
    + rewrite holding_snoc in Hhold.
      destruct ev as [| ? ? [[]|]| | | | |]; simpl in *; try done;
        try (rewrite Hlock; by apply Hown).
      by destruct Hlock.
    + rewrite app_nil_r in Hhold. pose proof (Hown t Hhold) as Ht.
      destruct ev as [| ? ? [[]|]| | | | |]; simpl in *; try done;
        try (by rewrite Hlock).
      * destruct Hlock. congruence.
      * rewrite removelast_last in Hlast. specialize (Hown t0 Hlast). congruence.
Qed.

Lemma exclusive_invariant (self : LuxtronikDevice) (sched : list nat)
    (w : World) (pool : list (thread unit)) (hist : list (nat * event)) :
  pool_of self hist pool → lock_owned hist w →
  clean ((hist ++ (run sched w pool).2).*2) = true →
  ∀ t t' th th',
    (run sched w pool).1.2 !! t = Some th →
    (run sched w pool).1.2 !! t' = Some th' →
    in_flight th = true → in_flight th' = true → t = t'.
Proof.
  revert w pool hist. induction sched as [|t0 sched IH];
    intros w pool hist Hpool Hown; simpl.
  - rewrite app_nil_r. intros Hclean t t' th th' Hth Hth' Hin Hin'.
    assert (∀ t th, pool !! t = Some th → in_flight th = true → lock w = Some t)
      as Hone.
    { intros t1 th1 Hth1 Hin1. apply (Hown Hclean).
      destruct (Hpool t1 th1 Hth1) as [c Hs].
      destruct (events_of t1 hist) as [|ev0 evs0] eqn:Hevs.
      { inversion Hs; subst. done. }
      destruct (lsteps_in_flight _ _ _ _ Hs) as [op Hop]; [done..|].
      pose proof (all_paths_sound _ t1 _ _ _ [] Hs (exclusive_paths self c)) as Hd.
      simpl in Hd. rewrite <- Hevs in *.
      specialize (Hd (clean_events_of _ _ Hclean)).
      unfold discipline in Hd. rewrite Hop in Hd.
      by apply andb_prop in Hd as [_ Hd]. }
    pose proof (Hone t th Hth Hin). pose proof (Hone t' th' Hth' Hin').
    congruence.
  - destruct (pool !! t0) as [th0|] eqn:Ht0; [|by apply IH].
    destruct (step t0 w th0) as [[[w1 th1] ev]|] eqn:Hstep; [|by apply IH].
    destruct (step_keeps_owner self hist pool w w1 t0 th0 th1 ev Hpool Hown
                Ht0 Hstep) as [Hpool1 Hown1].
    specialize (IH w1 (<[t0 := th1]> pool) (hist ++ [(t0, ev)]) Hpool1 Hown1).
    destruct (run sched w1 (<[t0 := th1]> pool)) as [[wf poolf] tr].
    simpl in *. by rewrite <- app_assoc in IH.
Qed.

(** X19: mutual exclusion holds in every interleaving of calls on one
    device in which no [acquire] times out or raises: two threads inside a
    device call are the same thread. *)
Lemma exclusive_without_timeouts (self : LuxtronikDevice) (calls : list call)
    (sched : list nat) (w : World) :
  let pool := (λ c, Running (invoke self c)) <$> calls in
  clean ((run sched w pool).2.*2) = true →
  ∀ t t' th th',
    (run sched w pool).1.2 !! t = Some th →
    (run sched w pool).1.2 !! t' = Some th' →
    in_flight th = true → in_flight th' = true → t = t'.
Proof.
  intros pool Hclean.
  apply (exclusive_invariant self sched w pool []); [| |done].
  - intros t th Hth. unfold pool in Hth. rewrite list_lookup_fmap in Hth.
    destruct (calls !! t) as [c|]; [|done]. simpl in Hth. simplify_eq.
    exists c. apply lsteps_nil.
  - by intros _ t Hhold.
Qed.

(** ** More on the locked methods *)

Lemma update_order_paths (self : LuxtronikDevice) (throttled : bool) :
  all_paths (λ evs res, acquired evs = true →
                        begun evs `prefix_of` [OpRead] ∧
                        (res = Some (Ret tt) → begun evs = [OpRead]))
    (update self throttled) [].
Proof.
  destruct throttled; unfold update, Throttle; walk; simpl; try discriminate;
    intros _; (split; [by eexists | done]).
Qed.

(** X1: in every execution of [update] whose [acquire] returned [True],
    under any interference, the only device call begun is one read, and an
    update that returns normally has made it. *)
Theorem update_order (t : nat) (self : LuxtronikDevice) (throttled : bool)
    (evs : list event) (th : thread unit) :
  lsteps t (Running (update self throttled)) evs th →
  acquired evs = true →
  begun evs `prefix_of` [OpRead] ∧
  (result th = Some (Ret tt) → begun evs = [OpRead]).
Proof.
  intros Hs.
  exact (all_paths_sound _ t _ _ evs [] Hs (update_order_paths self throttled)).
Qed.

(** X2: an [update] that its throttle turns away returns at once, with no
    step taken: no [acquire], no [release], no device call, no warning.  An
    [update] that runs ends, whichever way and under any interference, with
    the [lock.release()] of its [finally], and the lock is unlocked when
    that step is done. *)
Theorem update_releases (t : nat) (self : LuxtronikDevice) (throttled : bool)
    (evs : list event) (th : thread unit) :
  lsteps t (Running (update self throttled)) evs th →
  (throttled = true → evs = [] ∧ result th = Some (Ret tt)) ∧
  (∀ w w' th' ev,
     step t w th = Some (w', th', ev) → is_Some (result th') →
     throttled = false ∧ (∃ r, ev = EvRelease r) ∧ lock w' = None).
Proof.
  intros Hs. destruct throttled.
  - unfold update, Throttle in Hs.
    assert (evs = [] ∧ th = Running (Pure tt)) as [-> ->]
      by (inversion Hs; subst; [done | discriminate]).
    split; [done|]. intros w w' th' ev Hstep. discriminate Hstep.
  - split; [done|]. intros w w' th' ev Hstep Hres. split; [done|].
    pose proof (lsteps_snoc t w w' _ _ _ evs ev Hs Hstep) as Hs'.
    pose proof (all_paths_sound _ t _ _ _ [] Hs'
                  (release_paths self (CallUpdate false) eq_refl) Hres) as Hrel.
    simpl in Hrel. unfold ends_with_release in Hrel. rewrite last_snoc in Hrel.
    destruct ev; try done. split; [by eexists|].
    by eapply step_release_unlocks.
Qed.

Lemma timed_out_paths (self : LuxtronikDevice) (c : call) :
  all_paths (λ evs res, timed_out evs = true →
                        begun evs = [] ∧
                        warnings evs `prefix_of` [call_warning self c] ∧
                        (is_Some res → warnings evs = [call_warning self c]))
    (invoke self c) [].
Proof.
  destruct c as [p v []|[]]; unfold invoke, write, update, Throttle; walk;
    simpl; try discriminate; intros _; (split; [done|]);
    (split; [by eexists|]); try done; by intros [? ?].
Qed.

(** X3: a [write] or [update] whose wait on the lock timed out begins no
    device call, under any interference, and logs one warning: the message
    of its method with the parameter, the value and the timeout (for
    [update]: the timeout) as arguments. *)
Theorem timed_out_call_warns (t : nat) (self : LuxtronikDevice) (c : call)
    (evs : list event) (th : thread unit) :
  lsteps t (Running (invoke self c)) evs th →
  timed_out evs = true →
  begun evs = [] ∧
  warnings evs `prefix_of` [call_warning self c] ∧
  (is_Some (result th) → warnings evs = [call_warning self c]).
Proof.
  intros Hs.
  exact (all_paths_sound _ t _ _ evs [] Hs (timed_out_paths self c)).
Qed.

Lemma outcome_paths (self : LuxtronikDevice) (c : call) :
  all_paths outcome_ok (invoke self c) [].
Proof.
  destruct c as [p v []|[]]; unfold invoke, write, update, Throttle; walk;
    unfold outcome_ok; simpl; (split; [done|]); by intros ? [= <-].
Qed.

(** X4: a [write] or [update] returns normally exactly when none of its
    commands raised; otherwise it raises the last exception raised, so a
    [RuntimeError] of the [finally]'s release replaces an earlier error of
    the device or of [acquire].  After a device call has raised, the call
    begins no further device call. *)
Theorem call_outcome (t : nat) (self : LuxtronikDevice) (c : call)
    (evs : list event) (th : thread unit) (r : outcome unit) :
  lsteps t (Running (invoke self c)) evs th →
  result th = Some r →
  r = outcome_after evs ∧ no_call_after_error evs = true.
Proof.
  intros Hs Hr.
  destruct (all_paths_sound outcome_ok t _ _ evs [] Hs (outcome_paths self c))
    as [Hno Hres].
  split; [by apply Hres | done].
Qed.

(** X5: run alone from a world whose lock is free, with a timeout that
    [acquire] accepts, a [write], or an [update] that its throttle lets
    through, makes its device calls one after the other up to the first
    that raises, returns normally or raises that exception, logs nothing,
    and leaves the lock unlocked; a throttled [update] makes no device call
    and changes nothing ([call_ops] is empty for it). *)
Theorem call_alone (t : nat) (w : World) (self : LuxtronikDevice) (c : call)
    (secs : Z) :
  lock w = None →
  acquire_args true (_lock_timeout_sec self) = Ret secs →
  (exec 8 t w (Running (invoke self c))).1 =
    ({| lock := None;
        _luxtronik := (apply_ops (call_ops c) (_luxtronik w)).1;
        LOGGER := LOGGER w |},
     Running (lift (outcome_of (apply_ops (call_ops c) (_luxtronik w)).2))).
Proof.
  intros Hlock Hargs.
  destruct c as [p v u|[]]; unfold invoke, write, update, Throttle; simpl;
    rewrite ?Hargs, ?Hlock; simpl.
  - destruct (Lux_parameters_set p v (_luxtronik w)) as [d1 [e1|]]; simpl;
      [done|].
    destruct (Lux_write d1) as [d2 [e2|]]; simpl; [by destruct u|].
    destruct u; simpl; [|done].
    by destruct (Lux_read d2) as [d3 [e3|]].
  - destruct w as [l d log]. simpl in *. by subst.
  - by destruct (Lux_read (_luxtronik w)) as [d1 [e1|]].
Qed.

Lemma finishes_nonneg (t : nat) (w : World) (self : LuxtronikDevice) (c : call)
    (z : Z) :
  _lock_timeout_sec self = CInt z → 0 ≤ z →
  is_Some (result (exec 8 t w (Running (invoke self c))).1.2).
Proof.
  intros Hz Hpos.
  assert (acquire_args true (_lock_timeout_sec self) = Raise OverflowError ∨
          acquire_args true (_lock_timeout_sec self) = Ret z) as Hargs.
  { rewrite Hz. unfold acquire_args, acquire_seconds. simpl.
    destruct (Z.ltb_spec z 0); [lia|]. simpl.
    destruct (TIMEOUT_MAX <? z); [by left | by right]. }
  assert ((z =? -1) = false) as Hne by (apply Z.eqb_neq; lia).
  destruct c as [p v u|[]]; unfold invoke, write, update, Throttle; simpl;
    try (by eexists);
    destruct Hargs as [-> | ->]; simpl; destruct (lock w) eqn:Hl; simpl;
    rewrite ?Hne; simpl; rewrite ?Hl; simpl; try (by eexists).
  - destruct (Lux_parameters_set p v (_luxtronik w)) as [d1 [e1|]]; simpl;
      [by eexists|].
    destruct (Lux_write d1) as [d2 [e2|]]; simpl; [by eexists|].
    destruct u; simpl; [|by eexists].
    destruct (Lux_read d2) as [d3 [e3|]]; simpl; by eexists.
  - destruct (Lux_read (_luxtronik w)) as [d1 [e1|]]; simpl; by eexists.
Qed.

(** X6: with a non-negative integer timeout a [write] or [update] run alone
    is over within eight steps from any world, whether the lock is free or
    taken: it never waits forever. *)
Theorem call_finishes (t : nat) (w : World) (self : LuxtronikDevice) (c : call)
    (z : Z) :
  _lock_timeout_sec self = CInt z → 0 ≤ z →
  is_Some (result (exec 8 t w (Running (invoke self c))).1.2).
Proof. apply finishes_nonneg. Qed.


(** ** More on identifiers *)

Lemma split_dot_nonempty (s : string) : split_dot s ≠ [].
Proof.
  destruct s as [|c s]; simpl; [done|].
  destruct (Ascii.eqb c dot); [done|]. by destruct (split_dot s).
Qed.

Lemma split_dot_dotted (s : string) :
  no_dot s = false → ∃ g i more, split_dot s = g :: i :: more.
Proof.
  induction s as [|c s IH]; simpl; [done|].
  destruct (Ascii.eqb c dot); simpl.
  - intros _. pose proof (split_dot_nonempty s).
    destruct (split_dot s) as [|i more]; [done|]. by exists "", i, more.
  - intros Hs. destruct (IH Hs) as (g & i & more & ->).
    by exists (String c g), i, more.
Qed.

(** X8: [split_dot] cuts at every dot and nowhere else: no segment holds a
    dot, and joining the segments with dots gives the identifier back. *)
Theorem split_dot_join (s : string) :
  join_dot (split_dot s) = s ∧ Forall (λ x, no_dot x = true) (split_dot s).
Proof.
  induction s as [|c s [IHj IHf]]; simpl; [by repeat constructor|].
  pose proof (split_dot_nonempty s) as Hne.
  destruct (Ascii.eqb_spec c dot) as [->|Hc].
  - split; [|by constructor].
    destruct (split_dot s) as [|w ws]; [done|].
    change (String dot (join_dot (w :: ws)) = String dot s). by rewrite IHj.
  - destruct (split_dot s) as [|w ws]; [done|].
    apply Forall_cons in IHf as [Hw Hws]. split.
    + destruct ws as [|w' ws].
      * simpl in *. by rewrite IHj.
      * change (String c (join_dot (w :: w' :: ws)) = String c s).
        by rewrite IHj.
    + constructor; [|done]. simpl. rewrite Hw.
      by destruct (Ascii.eqb_spec c dot).
Qed.

(** X9: [get_value] reads only the first two segments of an identifier:
    what follows a second dot changes nothing. *)
Theorem get_value_ignores_rest (self : LuxtronikDevice) (g i rest : string) :
  no_dot g = true → no_dot i = true →
  get_value self (g +:+ String dot (i +:+ String dot rest)) =
  get_value self (g +:+ String dot i).
Proof.
  intros Hg Hi. unfold get_value.
  destruct (split_dot_two g i (String dot rest) Hg Hi) as [more Hs];
    [right; by eexists|].
  destruct (split_dot_two g i "" Hg Hi) as [more' Hs']; [by left|].
  replace (i +:+ "") with i in Hs'.
  - by rewrite (get_sensor_by_id_split _ _ _ _ _ Hs),
      (get_sensor_by_id_split _ _ _ _ _ Hs').
  - clear. induction i as [|a i IH]; [done|].
    change (String a i = String a (i +:+ "")). by rewrite <- IH.
Qed.

(** X10: for an identifier with a dot [get_value] never raises: run alone
    for three steps from any world it has returned a value or [None], and
    the world is as before, whatever the three group names are. *)
Theorem get_value_returns (t : nat) (w : World) (self : LuxtronikDevice)
    (s : string) :
  no_dot s = false →
  ∃ v, (exec 3 t w (Running (get_value self s))).1 = (w, Running (Pure v)).
Proof.
  intros Hs. destruct (split_dot_dotted s Hs) as (g & i & more & Hsplit).
  unfold get_value. rewrite (get_sensor_by_id_split _ _ _ _ _ Hsplit).
  unfold get_sensor.
  destruct (String.eqb g CONF_PARAMETERS), (String.eqb g CONF_CALCULATIONS),
    (String.eqb g CONF_VISIBILITIES); simpl;
    repeat (match goal with
            | |- context [table_get ?tbl ?d ?i] => destruct (table_get tbl d i); simpl
            end);
    by eexists.
Qed.

(** ** More on setup *)

(** X11: [setup_int] reads its five keys in a fixed order and raises
    [KeyError] for the first that is missing, before anything is created;
    with all five present it goes on to construct the device from the four
    values it passes on. *)
Theorem setup_int_keys (c : conf) (throttled : bool) :
  match first_missing c with
  | Some k => setup_int c throttled = Throw (KeyError k)
  | None =>
      ∃ host port safe tmo,
        c !! CONF_HOST = Some host ∧ c !! CONF_PORT = Some port ∧
        c !! CONF_SAFE = Some safe ∧ c !! CONF_LOCK_TIMEOUT = Some tmo ∧
        setup_int c throttled = bind (__init__ host port safe tmo throttled) Pure
  end.
Proof.
  unfold first_missing, setup_keys, setup_int, py_getitem. simpl.
  destruct (c !! CONF_HOST) as [host|]; simpl; [|done].
  destruct (c !! CONF_PORT) as [port|]; simpl; [|done].
  destruct (c !! CONF_SAFE) as [safe|]; simpl; [|done].
  destruct (c !! CONF_LOCK_TIMEOUT) as [tmo|]; simpl; [|done].
  destruct (c !! CONF_UPDATE_IMMEDIATELY_AFTER_WRITE) as [u|]; simpl; [|done].
  by exists host, port, safe, tmo.
Qed.

(** X12: when the constructor of the device handle raises, [__init__]
    raises that exception at once: no [acquire], no read, no device object. *)
Theorem init_connect_fails (t : nat) (w : World) (host port safe tmo : cval)
    (throttled : bool) (e : exn) :
  (Lux_new host port safe).2 = Some e →
  (exec 7 t w (Running (__init__ host port safe tmo throttled))).1.2
  = Running (Throw e) ∧
  (exec 7 t w (Running (__init__ host port safe tmo throttled))).2 =
    [EvNewLock; EvBegin (OpNew host port safe);
     EvEnd (OpNew host port safe) (Raise e)].
Proof.
  intros He. unfold __init__. simpl.
  destruct (Lux_new host port safe) as [d0 e0]. simpl in He. by subst.
Qed.

(** X13: run alone, when the constructor of the device handle succeeds,
    [__init__] creates the lock, constructs the handle and calls [update].
    If that call is not throttled and [acquire] accepts the timeout, it
    makes one first read under the new lock, which it always gets whatever
    the lock was before, and returns the device with the host, port and
    timeout it was given (or raises the read's exception).  If [acquire]
    rejects the timeout, no read is made and the [RuntimeError] of the
    [finally]'s release leaves the constructor.  If the call is throttled,
    the device is returned without a read.  In each case the lock ends
    unlocked and nothing is logged. *)
Theorem init_alone (t : nat) (w : World) (host port safe tmo : cval)
    (throttled : bool) (d0 : Lux) :
  Lux_new host port safe = (d0, None) →
  let self := {| _host := host; _port := port; _lock_timeout_sec := tmo |} in
  let run := exec 7 t w (Running (__init__ host port safe tmo throttled)) in
  let world d := {| lock := None; _luxtronik := d; LOGGER := LOGGER w |} in
  if throttled then
    run.1 = (world d0, Running (Pure self)) ∧
    begun run.2 = [OpNew host port safe]
  else
    match acquire_args true tmo with
    | Ret _ =>
        run.1 = (world (Lux_read d0).1,
                 Running match (Lux_read d0).2 with
                         | None => Pure self
                         | Some e => Throw e
                         end) ∧
        begun run.2 = [OpNew host port safe; OpRead]
    | Raise _ =>
        run.1 = (world d0, Running (Throw RuntimeError)) ∧
        begun run.2 = [OpNew host port safe]
    end.
Proof.
  intros Hnew self run world. unfold run, world, self.
  destruct throttled; unfold __init__, update, Throttle; simpl;
    rewrite Hnew; simpl; [done|].
  destruct (acquire_args true tmo); simpl; [|done].
  by destruct (Lux_read d0) as [d1 [e1|]].
Qed.

(** ** More on the schema *)

Lemma find_field (schema : list field) (f : field) :
  NoDup (f_key <$> schema) → f ∈ schema →
  find (λ f', bool_decide (f_key f' = f_key f)) schema = Some f.
Proof.
  induction schema as [|f0 schema IH]; intros Hnd Hin; simpl.
  - by apply elem_of_nil in Hin.
  - apply NoDup_cons in Hnd as [Hf0 Hnd].
    apply elem_of_cons in Hin as [->|Hin].
    + by rewrite bool_decide_true.
    + rewrite bool_decide_false; [by apply IH|].
      intros Heq. apply Hf0. rewrite Heq. apply list_elem_of_fmap. by exists f.
Qed.

Lemma insert_defaults_keeps (schema : list field) (c : conf) (k : string)
    (v : cval) :
  c !! k = Some v → insert_defaults schema c !! k = Some v.
Proof.
  intros Hk. induction schema as [|f schema IH]; simpl; [done|].
  destruct (f_default f) as [d|]; [|done].
  destruct (insert_defaults schema c !! f_key f) eqn:Hf; [done|].
  rewrite lookup_insert_ne; [done|]. intros <-. congruence.
Qed.

Lemma all_valid_lookup (schema : list field) (kvm : conf) (k : string) (v : cval) :
  all_valid schema kvm = true → kvm !! k = Some v →
  is_Some (validate_key schema k v).
Proof.
  unfold all_valid. rewrite forallb_forall. intros Hall Hk.
  apply (bool_decide_eq_true_1 (is_Some (validate_key schema k v))).
  apply (Hall (k, v)). apply list_elem_of_In. by apply elem_of_map_to_list.
Qed.

Lemma validate_mapping_entry (schema : list field) (c c' : conf) (k : string)
    (v : cval) :
  validate_mapping schema c = Some c' →
  insert_defaults schema c !! k = Some v →
  is_Some (c' !! k).
Proof.
  unfold validate_mapping. intros Hval Hk.
  destruct (all_valid _ _) eqn:Hall; [|done].
  destruct (required_present _ _); [|done]. simplify_eq/=.
  rewrite map_lookup_imap, Hk. simpl. by eapply all_valid_lookup.
Qed.

Lemma cv_port_range (v x : cval) :
  cv_port v = Some x → ∃ p, x = CInt p ∧ 1 ≤ p ≤ 65535.
Proof.
  unfold cv_port. destruct (Coerce_int v) as [p|]; [|done].
  destruct (Z.leb_spec 1 p), (Z.leb_spec p 65535); simpl; intros [= <-].
  exists p. split; [done|lia].
Qed.

Lemma cv_positive_int_range (v x : cval) :
  cv_positive_int v = Some x → ∃ z, x = CInt z ∧ 0 ≤ z.
Proof.
  unfold cv_positive_int. destruct (Coerce_int v) as [z|]; [|done].
  destruct (Z.leb_spec 0 z); intros [= <-]. by exists z.
Qed.

Lemma required_lookup (schema : list field) (kvm : conf) (f : field) :
  required_present schema kvm = true → f ∈ schema → f_marker f = Required →
  is_Some (kvm !! f_key f).
Proof.
  unfold required_present. rewrite forallb_forall. intros Hall Hin Hreq.
  specialize (Hall f). rewrite Hreq in Hall.
  apply (bool_decide_eq_true_1 (is_Some (kvm !! f_key f))).
  apply Hall. by apply list_elem_of_In.
Qed.

Lemma validated_entry (c c' : conf) (f : field) :
  NoDup (f_key <$> DOMAIN_SCHEMA) →
  validate_mapping DOMAIN_SCHEMA c = Some c' →
  f ∈ DOMAIN_SCHEMA →
  ∃ v v', c' !! f_key f = Some v' ∧ f_schema f v = Some v'.
Proof.
  intros Hnd Hval Hin.
  pose proof (validate_mapping_lookup _ _ _ (f_key f) Hnd Hval) as Hlook.
  rewrite (find_field _ _ Hnd Hin) in Hlook.
  assert (is_Some (insert_defaults DOMAIN_SCHEMA c !! f_key f)) as [v Hv].
  { destruct (f_default f) as [d|] eqn:Hd.
    - rewrite (insert_defaults_lookup _ _ _ Hnd), (find_field _ _ Hnd Hin), Hd.
      destruct (c !! f_key f); by eexists.
    - assert (f_marker f = Required) as Hreq.
      { unfold DOMAIN_SCHEMA in Hin.
        repeat (apply elem_of_cons in Hin as [->|Hin]); try done.
        by apply elem_of_nil in Hin. }
      unfold validate_mapping in Hval.
      destruct (all_valid _ _); [|done].
      destruct (required_present _ _) eqn:Hpres; [|done].
      by eapply required_lookup. }
  destruct (validate_mapping_entry _ _ _ _ _ Hval Hv) as [v' Hv'].
  rewrite Hv' in Hlook.
  destruct (c !! f_key f) as [v0|]; [by exists v0, v'|].
  destruct (f_default f) as [d|]; [by exists d, v'|done].
Qed.

Lemma schema_members :
  ∀ k, k ∈ setup_keys → ∃ f, f ∈ DOMAIN_SCHEMA ∧ f_key f = k.
Proof.
  intros k Hk. unfold setup_keys in Hk. unfold DOMAIN_SCHEMA.
  apply elem_of_cons in Hk as [->|Hk].
  { eexists. split; [apply list_elem_of_here|done]. }
  apply elem_of_cons in Hk as [->|Hk].
  { eexists. split; [apply list_elem_of_further, list_elem_of_here|done]. }
  apply elem_of_cons in Hk as [->|Hk].
  { eexists. split; [do 2 apply list_elem_of_further; apply list_elem_of_here|done]. }
  apply elem_of_cons in Hk as [->|Hk].
  { eexists. split; [do 3 apply list_elem_of_further; apply list_elem_of_here|done]. }
  apply elem_of_cons in Hk as [->|Hk].
  { eexists. split; [do 4 apply list_elem_of_further; apply list_elem_of_here|done]. }
  by apply elem_of_nil in Hk.
Qed.


(** X14: a section that [DOMAIN_SCHEMA] accepts comes out with exactly the
    five keys [setup_int] reads (so [setup_int] raises no [KeyError] on it),
    a port between 1 and 65535 and a lock timeout that is a non-negative
    integer. *)
Theorem validated_section (c c' : conf) :
  NoDup (f_key <$> DOMAIN_SCHEMA) →
  validate_mapping DOMAIN_SCHEMA c = Some c' →
  (∀ k, is_Some (c' !! k) ↔ k ∈ setup_keys) ∧
  first_missing c' = None ∧
  (∃ p, c' !! CONF_PORT = Some (CInt p) ∧ 1 ≤ p ≤ 65535) ∧
  (∃ z, c' !! CONF_LOCK_TIMEOUT = Some (CInt z) ∧ 0 ≤ z).
Proof.
  intros Hnd Hval.
  assert (∀ k, k ∈ setup_keys → is_Some (c' !! k)) as Hin.
  { intros k Hk. destruct (schema_members k Hk) as (f & Hf & <-).
    destruct (validated_entry c c' f Hnd Hval Hf) as (v & v' & Hv' & _).
    by eexists. }
  split; [|split; [|split]].
  - intros k. split; [|by apply Hin].
    rewrite (validate_mapping_lookup _ _ _ k Hnd Hval).
    destruct (find _ DOMAIN_SCHEMA) as [f|] eqn:Hfind; [|by intros [? ?]].
    intros _. apply find_some in Hfind as [Hf Hk].
    apply bool_decide_eq_true_1 in Hk as <-. apply list_elem_of_In in Hf.
    unfold DOMAIN_SCHEMA in Hf.
    repeat (apply elem_of_cons in Hf as [->|Hf]); simpl;
      try (by apply elem_of_nil in Hf); unfold setup_keys;
      repeat (first [apply list_elem_of_here | apply list_elem_of_further]).
  - unfold first_missing. 
    destruct (find _ setup_keys) as [k|] eqn:Hfind; [|done].
    apply find_some in Hfind as [Hk Hnone].
    apply bool_decide_eq_true_1 in Hnone. apply list_elem_of_In in Hk.
    destruct (Hin k Hk) as [v Hv]. congruence.
  - destruct (validated_entry c c'
                {| f_marker := Required; f_key := CONF_PORT;
                   f_default := Some (CInt DEFAULT_PORT); f_schema := cv_port |}
                Hnd Hval) as (v & v' & Hv' & Hs).
    { unfold DOMAIN_SCHEMA. apply list_elem_of_further, list_elem_of_here. }
    simpl in *. destruct (cv_port_range _ _ Hs) as (p & -> & Hp). by exists p.
  - destruct (validated_entry c c'
                {| f_marker := Optional; f_key := CONF_LOCK_TIMEOUT;
                   f_default := Some (CInt 30); f_schema := cv_positive_int |}
                Hnd Hval) as (v & v' & Hv' & Hs).
    { unfold DOMAIN_SCHEMA. do 3 apply list_elem_of_further.
      apply list_elem_of_here. }
    simpl in *. destruct (cv_positive_int_range _ _ Hs) as (z & -> & Hz).
    by exists z.
Qed.

Lemma validate_mapping_invalid (schema : list field) (c : conf) (k : string)
    (v : cval) :
  c !! k = Some v → validate_key schema k v = None →
  validate_mapping schema c = None.
Proof.
  intros Hk Hbad. unfold validate_mapping.
  destruct (all_valid _ _) eqn:Hall; [|done].
  destruct (all_valid_lookup _ _ k v Hall (insert_defaults_keeps _ _ _ _ Hk))
    as [v' Hv']. congruence.
Qed.

(** X15: a section without the host is rejected. *)
Theorem host_required (c : conf) :
  NoDup (f_key <$> DOMAIN_SCHEMA) →
  c !! CONF_HOST = None →
  validate_mapping DOMAIN_SCHEMA c = None.
Proof.
  intros Hnd Hhost.
  destruct (validate_mapping DOMAIN_SCHEMA c) as [c'|] eqn:Hval; [|done].
  exfalso.
  set (f := {| f_marker := Required; f_key := CONF_HOST; f_default := None;
               f_schema := cv_string |}).
  assert (f ∈ DOMAIN_SCHEMA) as Hf by (unfold DOMAIN_SCHEMA; apply list_elem_of_here).
  destruct (validated_entry c c' f Hnd Hval Hf) as (v & v' & Hv' & _).
  pose proof (validate_mapping_lookup _ _ _ (f_key f) Hnd Hval) as Hlook.
  rewrite (find_field _ _ Hnd Hf) in Hlook. simpl in *.
  rewrite Hhost in Hlook. congruence.
Qed.

(** X16: a section with a key that is not one of the five is rejected. *)
Theorem extra_key_rejected (c : conf) (k : string) (v : cval) :
  c !! k = Some v → k ∉ setup_keys →
  validate_mapping DOMAIN_SCHEMA c = None.
Proof.
  intros Hk Hextra. apply (validate_mapping_invalid _ _ k v Hk).
  unfold validate_key.
  destruct (find _ DOMAIN_SCHEMA) as [f|] eqn:Hfind; [|done].
  exfalso. apply Hextra.
  apply find_some in Hfind as [Hf Hkey].
  apply bool_decide_eq_true_1 in Hkey as <-. apply list_elem_of_In in Hf.
  unfold DOMAIN_SCHEMA in Hf.
  repeat (apply elem_of_cons in Hf as [->|Hf]); simpl;
    try (by apply elem_of_nil in Hf); unfold setup_keys;
    repeat (first [apply list_elem_of_here | apply list_elem_of_further]).
Qed.

Lemma find_lock_timeout :
  NoDup (f_key <$> DOMAIN_SCHEMA) →
  find (λ f, bool_decide (f_key f = CONF_LOCK_TIMEOUT)) DOMAIN_SCHEMA =
    Some {| f_marker := Optional; f_key := CONF_LOCK_TIMEOUT;
            f_default := Some (CInt 30); f_schema := cv_positive_int |}.
Proof.
  intros Hnd.
  apply (find_field DOMAIN_SCHEMA
           {| f_marker := Optional; f_key := CONF_LOCK_TIMEOUT;
              f_default := Some (CInt 30); f_schema := cv_positive_int |} Hnd).
  unfold DOMAIN_SCHEMA. do 3 apply list_elem_of_further. apply list_elem_of_here.
Qed.

Lemma find_port :
  NoDup (f_key <$> DOMAIN_SCHEMA) →
  find (λ f, bool_decide (f_key f = CONF_PORT)) DOMAIN_SCHEMA =
    Some {| f_marker := Required; f_key := CONF_PORT;
            f_default := Some (CInt DEFAULT_PORT); f_schema := cv_port |}.
Proof.
  intros Hnd.
  apply (find_field DOMAIN_SCHEMA
           {| f_marker := Required; f_key := CONF_PORT;
              f_default := Some (CInt DEFAULT_PORT); f_schema := cv_port |} Hnd).
  unfold DOMAIN_SCHEMA. apply list_elem_of_further, list_elem_of_here.
Qed.

(** X17: a negative lock timeout and a port outside 1..65535 are
    rejected. *)
Theorem out_of_range_rejected (c : conf) (z : Z) :
  NoDup (f_key <$> DOMAIN_SCHEMA) →
  (c !! CONF_LOCK_TIMEOUT = Some (CInt z) ∧ z < 0) ∨
  (c !! CONF_PORT = Some (CInt z) ∧ (z < 1 ∨ 65535 < z)) →
  validate_mapping DOMAIN_SCHEMA c = None.
Proof.
  intros Hnd [[Hk Hz]|[Hk Hz]];
    apply (validate_mapping_invalid _ _ _ _ Hk); unfold validate_key.
  - rewrite (find_lock_timeout Hnd). simpl. unfold cv_positive_int. simpl.
    by destruct (Z.leb_spec 0 z); [lia|].
  - rewrite (find_port Hnd). simpl. unfold cv_port. simpl.
    destruct (Z.leb_spec 1 z), (Z.leb_spec z 65535); simpl; try done; lia.
Qed.

(** X18: a device that [setup] builds from a configuration accepted by
    [CONFIG_SCHEMA] has a non-negative integer lock timeout, so its
    [update] and [write], run alone from any world, are over within eight
    steps: they never wait forever. *)
Theorem validated_device_never_blocks (config config' : gmap string conf)
    (throttled : bool) (t : nat) (evs : list event)
    (th : thread (option LuxtronikDevice)) (self : LuxtronikDevice) :
  NoDup (f_key <$> DOMAIN_SCHEMA) →
  CONFIG_SCHEMA config = Some config' →
  lsteps t (Running (setup config' throttled)) evs th →
  result th = Some (Ret (Some self)) →
  (∃ z, _lock_timeout_sec self = CInt z ∧ 0 ≤ z) ∧
  ∀ (c : call) (t' : nat) (w : World),
    is_Some (result (exec 8 t' w (Running (invoke self c))).1.2).
Proof.
  intros Hnd Hschema Hs Hres.
  assert (∃ z, _lock_timeout_sec self = CInt z ∧ 0 ≤ z) as (z & Hz & Hpos).
  { unfold CONFIG_SCHEMA in Hschema.
    destruct (config !! DOMAIN) as [c|] eqn:Hc.
    - destruct (validate_mapping DOMAIN_SCHEMA c) as [c'|] eqn:Hval; [|done].
      injection Hschema as <-.
      pose proof (all_paths_sound _ t _ _ _ [] Hs
                    (setup_paths (<[DOMAIN := c']> config) c' throttled
                       (lookup_insert_eq _ _ _))) as Hself.
      simpl in Hself. specialize (Hself self Hres).
      destruct (validated_entry c c'
                  {| f_marker := Optional; f_key := CONF_LOCK_TIMEOUT;
                     f_default := Some (CInt 30); f_schema := cv_positive_int |}
                  Hnd Hval) as (v & v' & Hv' & Hsch).
      { unfold DOMAIN_SCHEMA. do 3 apply list_elem_of_further.
        apply list_elem_of_here. }
      simpl in *. destruct (cv_positive_int_range _ _ Hsch) as (z & -> & Hz).
      exists z. split; [congruence|done].
    - injection Hschema as <-. unfold setup in Hs. rewrite Hc in Hs.
      inversion Hs; subst; simpl in *; [done|discriminate]. }
  split; [by exists z|]. intros c t' w. by eapply finishes_nonneg.
Qed.

End Facts.

(** * The properties at the concrete setting *)

Section Demo.
#[local] Existing Instances demo_const demo_host demo_vendor.

(** ** Two interleavings *)

(** C1 fails on the code: thread 0 holds the lock and is inside its read
    when thread 1, whose wait timed out, runs its [finally] and unlocks the
    lock it never took; thread 2 then takes the lock and starts a device
    call of its own.  Two device calls are in flight at once. *)
Theorem overlap_after_timed_out_release :
  let '(w, pool, tr) := run overlap_schedule demo_world demo_pool in
  events_of 1 tr =
    [EvAcquire true (CInt 30) (Ret false);
     EvWarning write_warning [LStr "ID_Ba_Hz_akt"; LVal 1; LCfg (CInt 30)];
     EvRelease (Ret tt)] ∧
  in_flight <$> pool = [true; false; true] ∧
  number_in_flight pool = 2%nat.
Proof. lazy -[demo_vendor]. repeat split; reflexivity. Qed.

(** C2 fails on the code: thread 1 times out while thread 0 holds the lock;
    thread 0 finishes and releases before thread 1 reaches its [finally],
    whose [lock.release()] then finds the lock unlocked.  The timed-out
    write ends with [RuntimeError]. *)
Theorem timed_out_write_raises :
  let '(w, pool, tr) := run late_release_schedule demo_world demo_pool in
  events_of 1 tr =
    [EvAcquire true (CInt 30) (Ret false);
     EvWarning write_warning [LStr "ID_Ba_Hz_akt"; LVal 1; LCfg (CInt 30)];
     EvRelease (Raise RuntimeError)] ∧
  result <$> pool = [Some (Ret tt); Some (Raise RuntimeError); None].
Proof. lazy -[demo_vendor]. repeat split; reflexivity. Qed.

(** ** Instances of the theorems *)

Lemma get_value_no_dot_raises_witness :
  no_dot "parameters" = true ∧
  result (Running (get_value demo_self "parameters")) = Some (Raise IndexError).
Proof.
  split; [reflexivity|].
  apply (get_value_no_dot_raises demo_self "parameters"). reflexivity.
Defined.

(** C4 as stated fails: the identifier [ID_WEB_Temperatur_TVL] has no dot,
    and [get_value] neither returns a value nor [None] for it: it raises
    [IndexError]. *)
Lemma get_value_undotted_counterexample :
  exec 3 1 demo_world_held (Running (get_value demo_self "ID_WEB_Temperatur_TVL"))
    = (demo_world_held, Running (Throw IndexError), []) ∧
  ¬ ∃ r, result (Running (get_value demo_self "ID_WEB_Temperatur_TVL"))
         = Some (Ret r).
Proof.
  split; [reflexivity|]. intros [r Hr]. discriminate Hr.
Qed.

Lemma get_value_dotted_witness :
  exec 3 1 demo_world_held
    (Running (get_value demo_self "parameters.ID_Ba_Hz_akt")) =
    (demo_world_held, Running (Pure (Some 4)), [EvGet Parameters "ID_Ba_Hz_akt"]).
Proof.
  assert (exec 3 1 demo_world_held
            (Running (get_value demo_self
                        ("parameters" +:+ String dot ("ID_Ba_Hz_akt" +:+ "")))) =
          (demo_world_held,
           Running (Pure (lookup_value (_luxtronik demo_world_held)
                            "parameters" "ID_Ba_Hz_akt")),
           match group_table "parameters" with
           | Some tbl => [EvGet tbl "ID_Ba_Hz_akt"]
           | None => []
           end)) as Hw.
  { apply (get_value_dotted 1 demo_world_held demo_self
             "parameters" "ID_Ba_Hz_akt" "");
      [discriminate | discriminate | discriminate | reflexivity | reflexivity
      | left; reflexivity]. }
  exact Hw.
Defined.

(** A write of thread 1, alone, from a world with the lock free. *)
Lemma write_order_witness :
  let run := exec 9 1 demo_world
               (Running (write demo_self "ID_Ba_Bw_akt" (2 : @Value demo_vendor) true)) in
  acquired run.2 = true ∧
  begun run.2 = [OpSet "ID_Ba_Bw_akt" 2; OpWrite; OpRead] ∧
  result run.1.2 = Some (Ret tt).
Proof.
  intros run.
  destruct (write_order 1 demo_self "ID_Ba_Bw_akt" (2 : @Value demo_vendor)
              true run.2 run.1.2) as [_ Hall].
  - apply exec_lsteps.
  - reflexivity.
  - split; [reflexivity|]. split; [|reflexivity]. apply Hall. reflexivity.
Defined.

(** The device rejects the parameter of this write: the exception reaches
    the [finally], whose release ends the call and frees the lock. *)
Lemma write_releases_witness :
  let run := exec 3 1 demo_world
               (Running (write demo_self "" (2 : @Value demo_vendor) false)) in
  run.2 = [EvAcquire true (CInt 30) (Ret true); EvBegin (OpSet "" 2);
           EvEnd (OpSet "" 2) (Raise (VendorError 1))] ∧
  ∃ w' th',
    step 1 run.1.1 run.1.2 = Some (w', th', EvRelease (Ret tt)) ∧
    result th' = Some (Raise (VendorError 1)) ∧ lock w' = None.
Proof.
  intros run. split; [reflexivity|].
  eexists _, _. split; [reflexivity|]. split; [reflexivity|].
  eapply (write_releases 1 demo_self "" (2 : @Value demo_vendor) false
            run.2 run.1.2 _ run.1.1).
  - apply exec_lsteps.
  - reflexivity.
  - by eexists.
Defined.

(** Thread 1 calls [write], or calls [update], while thread 0 holds the
    lock: the three steps of the timed-out caller, for each of the two. *)
Lemma timed_out_caller_releases_witness :
  (∃ th1 th2,
     step 1 demo_world_held
       (Running (write demo_self "ID_Ba_Hz_akt" (1 : @Value demo_vendor) false)) =
       Some (demo_world_held, th1, EvAcquire true (CInt 30) (Ret false)) ∧
     (∀ wa, step 1 wa th1 =
              Some (add_warning write_warning
                      [LStr "ID_Ba_Hz_akt"; LVal 1; LCfg (CInt 30)] wa, th2,
                    EvWarning write_warning
                      [LStr "ID_Ba_Hz_akt"; LVal 1; LCfg (CInt 30)])) ∧
     (∀ wb holder', lock wb = Some holder' →
        step 1 wb th2 =
          Some (set_lock None wb, Running (Pure tt), EvRelease (Ret tt))) ∧
     (∀ wb, lock wb = None →
        step 1 wb th2 = Some (wb, Running (Throw RuntimeError),
                              EvRelease (Raise RuntimeError)))) ∧
  (∃ th1 th2,
     step 1 demo_world_held (Running (update demo_self false)) =
       Some (demo_world_held, th1, EvAcquire true (CInt 30) (Ret false)) ∧
     (∀ wa, step 1 wa th1 =
              Some (add_warning update_warning [LCfg (CInt 30)] wa, th2,
                    EvWarning update_warning [LCfg (CInt 30)])) ∧
     (∀ wb holder', lock wb = Some holder' →
        step 1 wb th2 =
          Some (set_lock None wb, Running (Pure tt), EvRelease (Ret tt))) ∧
     (∀ wb, lock wb = None →
        step 1 wb th2 = Some (wb, Running (Throw RuntimeError),
                              EvRelease (Raise RuntimeError)))).
Proof.
  split.
  - apply (timed_out_caller_releases 1 0 demo_self
             (CallWrite "ID_Ba_Hz_akt" (1 : @Value demo_vendor) false)
             demo_world_held 30);
      [reflexivity | reflexivity | reflexivity | discriminate].
  - apply (timed_out_caller_releases 1 0 demo_self (CallUpdate false)
             demo_world_held 30);
      [reflexivity | reflexivity | reflexivity | discriminate].
Defined.

Lemma demo_keys_distinct : NoDup (f_key <$> DOMAIN_SCHEMA).
Proof. apply (bool_decide_unpack _). exact I. Qed.

Lemma demo_config_validated :
  CONFIG_SCHEMA demo_config = Some (<["luxtronik" := demo_section]> demo_config).
Proof. reflexivity. Qed.

Lemma demo_setup_result :
  result (exec 9 0 demo_world
            (Running (setup (<["luxtronik" := demo_section]> demo_config)
                        false))).1.2
  = Some (Ret (Some demo_self)).
Proof. reflexivity. Qed.


(** ** Instances of the further properties *)

Lemma update_order_witness :
  let run := exec 4 1 demo_world (Running (update demo_self false)) in
  acquired run.2 = true ∧ begun run.2 = [OpRead] ∧
  result run.1.2 = Some (Ret tt).
Proof.
  intros run.
  destruct (update_order 1 demo_self false run.2 run.1.2) as [_ Hall].
  - apply exec_lsteps.
  - reflexivity.
  - split; [reflexivity|]. split; [|reflexivity]. apply Hall. reflexivity.
Defined.

Lemma update_releases_witness :
  let run := exec 3 1 demo_world (Running (update demo_self false)) in
  run.2 = [EvAcquire true (CInt 30) (Ret true); EvBegin OpRead;
           EvEnd OpRead (Ret tt)] ∧
  ∃ w' th',
    step 1 run.1.1 run.1.2 = Some (w', th', EvRelease (Ret tt)) ∧
    result th' = Some (Ret tt) ∧ lock w' = None.
Proof.
  intros run. split; [reflexivity|].
  eexists _, _. split; [reflexivity|]. split; [reflexivity|].
  destruct (update_releases 1 demo_self false run.2 run.1.2) as [_ Hrel].
  - apply exec_lsteps.
  - eapply (Hrel run.1.1); [reflexivity | by eexists].
Defined.

Lemma timed_out_call_warns_witness :
  let run := exec 3 1 demo_world_held
               (Running (invoke demo_self
                           (CallWrite "ID_Ba_Hz_akt" (1 : @Value demo_vendor) false))) in
  timed_out run.2 = true ∧ begun run.2 = [] ∧
  warnings run.2 =
    [(write_warning, [LStr "ID_Ba_Hz_akt"; LVal 1; LCfg (CInt 30)])].
Proof.
  intros run.
  destruct (timed_out_call_warns 1 demo_self
              (CallWrite "ID_Ba_Hz_akt" (1 : @Value demo_vendor) false)
              run.2 run.1.2) as (Hb & _ & Hw).
  - apply exec_lsteps.
  - reflexivity.
  - split; [reflexivity|]. split; [exact Hb|]. apply Hw. by eexists.
Defined.

Lemma call_outcome_witness :
  let run := exec 4 1 demo_world
               (Running (invoke demo_self
                           (CallWrite "" (2 : @Value demo_vendor) true))) in
  result run.1.2 = Some (Raise (VendorError 1)) ∧
  Raise (VendorError 1) = outcome_after run.2 ∧
  begun run.2 = [OpSet "" 2].
Proof.
  intros run. split; [reflexivity|].
  destruct (call_outcome 1 demo_self (CallWrite "" (2 : @Value demo_vendor) true)
              run.2 run.1.2 (Raise (VendorError 1))) as [Hout _].
  - apply exec_lsteps.
  - reflexivity.
  - split; [exact Hout | reflexivity].
Defined.

Lemma call_alone_witness :
  (exec 8 1 demo_world
     (Running (invoke demo_self
                 (CallWrite "ID_Ba_Bw_akt" (2 : @Value demo_vendor) true)))).1 =
  ({| lock := None;
      _luxtronik :=
        ({| parameters := {[ "ID_Ba_Bw_akt" := 2 ]}; calculations := ∅;
            visibilities := ∅; queue := [] |} : @Lux demo_vendor);
      LOGGER := [] |},
   Running (Pure tt)).
Proof.
  exact (call_alone 1 demo_world demo_self
           (CallWrite "ID_Ba_Bw_akt" (2 : @Value demo_vendor) true) 30
           eq_refl eq_refl).
Defined.

Lemma call_finishes_witness :
  is_Some (result (exec 8 1 demo_world_held
                     (Running (invoke demo_self (CallUpdate false)))).1.2).
Proof.
  apply (call_finishes 1 demo_world_held demo_self (CallUpdate false) 30);
    [reflexivity | lia].
Defined.


Lemma get_value_ignores_rest_witness :
  get_value demo_self "parameters.ID_Ba_Hz_akt.raw" =
  get_value demo_self "parameters.ID_Ba_Hz_akt".
Proof.
  exact (get_value_ignores_rest demo_self "parameters" "ID_Ba_Hz_akt" "raw"
           eq_refl eq_refl).
Defined.

Lemma get_value_returns_witness :
  ∃ v, (exec 3 1 demo_world_held
          (Running (get_value demo_self "calculations.ID_WEB_Temperatur_TVL"))).1
       = (demo_world_held, Running (Pure v)).
Proof.
  exact (get_value_returns 1 demo_world_held demo_self
           "calculations.ID_WEB_Temperatur_TVL" eq_refl).
Defined.

Lemma init_connect_fails_witness :
  (exec 7 1 demo_world_down
     (Running (@__init__ demo_vendor_down (CStr "192.168.0.2") (CInt 8889)
                 (CBool true) (CInt 30) false))).1.2
  = Running (Throw (VendorError 111)).
Proof.
  apply (@init_connect_fails demo_host demo_vendor_down 1 demo_world_down
           (CStr "192.168.0.2") (CInt 8889) (CBool true) (CInt 30) false
           (VendorError 111) eq_refl).
Defined.

Lemma init_alone_witness :
  (exec 7 1 demo_world_held
     (Running (__init__ (CStr "192.168.0.2") (CInt 8889) (CBool true)
                 (CInt 30) false))).1 =
  ({| lock := None; _luxtronik := (demo_empty : @Lux demo_vendor);
      LOGGER := [] |},
   Running (Pure demo_self)).
Proof.
  assert (@Lux_new demo_vendor (CStr "192.168.0.2") (CInt 8889) (CBool true)
          = (demo_empty, None)) as Hnew by reflexivity.
  pose proof (init_alone 1 demo_world_held (CStr "192.168.0.2") (CInt 8889)
                (CBool true) (CInt 30) false (demo_empty : @Lux demo_vendor)
                Hnew) as Hw.
  simpl in Hw. exact (proj1 Hw).
Defined.

Lemma demo_section_validated :
  validate_mapping DOMAIN_SCHEMA {[ "host" := CStr "192.168.0.2" ]}
  = Some demo_section.
Proof. reflexivity. Qed.

Lemma validated_section_witness :
  first_missing demo_section = None ∧
  (∃ p, demo_section !! CONF_PORT = Some (CInt p) ∧ 1 ≤ p ≤ 65535) ∧
  (∃ z, demo_section !! CONF_LOCK_TIMEOUT = Some (CInt z) ∧ 0 ≤ z).
Proof.
  exact (proj2 (validated_section {[ "host" := CStr "192.168.0.2" ]}
                  demo_section demo_keys_distinct demo_section_validated)).
Defined.

Lemma host_required_witness :
  validate_mapping DOMAIN_SCHEMA {[ "port" := CInt 8889 ]} = None.
Proof.
  exact (host_required {[ "port" := CInt 8889 ]} demo_keys_distinct eq_refl).
Defined.

Lemma demo_extra_key : "timeout" ∉ setup_keys.
Proof. apply (bool_decide_unpack _). exact I. Qed.

Lemma extra_key_rejected_witness :
  validate_mapping DOMAIN_SCHEMA
    {[ "host" := CStr "192.168.0.2"; "timeout" := CInt 5 ]} = None.
Proof.
  exact (extra_key_rejected
           {[ "host" := CStr "192.168.0.2"; "timeout" := CInt 5 ]}
           "timeout" (CInt 5) eq_refl demo_extra_key).
Defined.

Lemma out_of_range_rejected_witness :
  validate_mapping DOMAIN_SCHEMA
    {[ "host" := CStr "192.168.0.2"; "lock_timeout" := CInt (-1) ]} = None.
Proof.
  apply (out_of_range_rejected
           {[ "host" := CStr "192.168.0.2"; "lock_timeout" := CInt (-1) ]}
           (-1) demo_keys_distinct).
  left. split; [reflexivity | lia].
Defined.

Lemma validated_device_never_blocks_witness :
  (∃ z, _lock_timeout_sec demo_self = CInt z ∧ 0 ≤ z) ∧
  ∀ (c : call) (t' : nat) (w : World),
    is_Some (result (exec 8 t' w (Running (invoke demo_self c))).1.2).
Proof.
  exact (validated_device_never_blocks demo_config
           (<["luxtronik" := demo_section]> demo_config) false 0 _ _ demo_self
           demo_keys_distinct demo_config_validated
           (exec_lsteps 9 0 demo_world _) demo_setup_result).
Defined.

Lemma exclusive_without_timeouts_witness :
  clean ((run serial_schedule demo_world
            ((λ c, Running (invoke demo_self c)) <$> demo_calls)).2.*2) = true ∧
  ∀ t t' th th',
    (run serial_schedule demo_world
       ((λ c, Running (invoke demo_self c)) <$> demo_calls)).1.2 !! t = Some th →
    (run serial_schedule demo_world
       ((λ c, Running (invoke demo_self c)) <$> demo_calls)).1.2 !! t' = Some th' →
    in_flight th = true → in_flight th' = true → t = t'.
Proof.
  split; [reflexivity|].
  apply (exclusive_without_timeouts demo_self demo_calls serial_schedule
           demo_world).
  reflexivity.
Defined.

End Demo.
